(** * Node resource bookkeeping and the decrement algorithm

    A shallow embedding of [src/hpc/autoscale/node/node.py]: the [Node]
    class (its allocation flags, the [available] mapping, the assignment
    set, the [closed] and [placement_group] setters), the module-level
    function [minimum_space], and the methods [decrement], [assign],
    [update] and [clone].

    Python objects are mutable; every method below is a function on the
    state of the node it is called on.  Methods that can raise return a
    [Res]; [decrement], which calls into the constraints, runs in a small
    state, exception and call-trace monad. *)

From stdpp Require Import gmap strings list fin_maps.
From Stdlib Require Import ZArith Ascii String.

Local Open Scope string_scope.

(** ** Python values stored in the resource dictionaries *)

Inductive PyVal : Type :=
| VNone
| VBool (b : bool)
| VInt (z : Z)
| VStr (s : string).

(** Python's [==] on these values: [bool] is a subclass of [int], so
    [True == 1] and [False == 0]. *)
Definition py_eqb (a b : PyVal) : bool :=
  match a, b with
  | VNone, VNone => true
  | VBool x, VBool y => Bool.eqb x y
  | VInt x, VInt y => (x =? y)%Z
  | VBool x, VInt y => (Z.b2z x =? y)%Z
  | VInt x, VBool y => (x =? Z.b2z y)%Z
  | VStr x, VStr y => String.eqb x y
  | _, _ => false
  end.

(** ** Exceptions and results *)

Inductive Exn : Type :=
| RuntimeError (msg : string)
| AssertionError (msg : string)
| TypeError (msg : string)
| ValueError (msg : string).

Inductive Res (A : Type) : Type :=
| Ok (a : A)
| Raise (e : Exn).
Arguments Ok {A} a.
Arguments Raise {A} e.

Definition is_ok {A} (r : Res A) : bool :=
  match r with Ok _ => true | Raise _ => false end.

(** ** The state of a [Node]

    Fields carry the attribute names of [Node.__init__].  Identity and
    static descriptors (name, nodearray, vm_size, vcpu_count, timestamps,
    ...) are read by none of the methods below and are left out. *)

Record Node : Type := mkNode {
  _resources : gmap string PyVal;
  __available : gmap string PyVal;
  __exists : bool;
  __placement_group : option string;
  _allocated : bool;
  __closed : bool;
  __metadata : gmap string PyVal;
  __node_attribute_overrides : gmap string PyVal;
  __assignments : gset string;
  __keep_alive : bool
}.

Definition with_available (v : gmap string PyVal) (n : Node) : Node :=
  mkNode (_resources n) v (__exists n) (__placement_group n) (_allocated n)
         (__closed n) (__metadata n) (__node_attribute_overrides n)
         (__assignments n) (__keep_alive n).

Definition with_exists (v : bool) (n : Node) : Node :=
  mkNode (_resources n) (__available n) v (__placement_group n) (_allocated n)
         (__closed n) (__metadata n) (__node_attribute_overrides n)
         (__assignments n) (__keep_alive n).

Definition with_placement_group (v : option string) (n : Node) : Node :=
  mkNode (_resources n) (__available n) (__exists n) v (_allocated n)
         (__closed n) (__metadata n) (__node_attribute_overrides n)
         (__assignments n) (__keep_alive n).

Definition with_allocated (v : bool) (n : Node) : Node :=
  mkNode (_resources n) (__available n) (__exists n) (__placement_group n) v
         (__closed n) (__metadata n) (__node_attribute_overrides n)
         (__assignments n) (__keep_alive n).

Definition with_closed (v : bool) (n : Node) : Node :=
  mkNode (_resources n) (__available n) (__exists n) (__placement_group n)
         (_allocated n) v (__metadata n) (__node_attribute_overrides n)
         (__assignments n) (__keep_alive n).

Definition with_metadata (v : gmap string PyVal) (n : Node) : Node :=
  mkNode (_resources n) (__available n) (__exists n) (__placement_group n)
         (_allocated n) (__closed n) v (__node_attribute_overrides n)
         (__assignments n) (__keep_alive n).

Definition with_node_attribute_overrides (v : gmap string PyVal) (n : Node) : Node :=
  mkNode (_resources n) (__available n) (__exists n) (__placement_group n)
         (_allocated n) (__closed n) (__metadata n) v
         (__assignments n) (__keep_alive n).

Definition with_assignments (v : gset string) (n : Node) : Node :=
  mkNode (_resources n) (__available n) (__exists n) (__placement_group n)
         (_allocated n) (__closed n) (__metadata n)
         (__node_attribute_overrides n) v (__keep_alive n).

(** ** Property getters *)

Definition available (n : Node) : gmap string PyVal := __available n.
Definition assignments (n : Node) : gset string := __assignments n.
Definition metadata (n : Node) : gmap string PyVal := __metadata n.
Definition keep_alive (n : Node) : bool := __keep_alive n.
Definition closed (n : Node) : bool := __closed n.
Definition exists_ (n : Node) : bool := __exists n.
Definition placement_group (n : Node) : option string := __placement_group n.

(** [bool(s)] for a set: true when the set has an element. *)
Definition set_truthy (s : gset string) : bool :=
  negb (bool_decide (s = ∅)).

(** [bool(s)] for a string: true when it is not empty. *)
Definition str_truthy (s : string) : bool :=
  match s with EmptyString => false | String _ _ => true end.

(** [Node.required]: [self.__keep_alive or self._allocated or
    bool(self.assignments)]. *)
Definition required (n : Node) : bool :=
  __keep_alive n || _allocated n || set_truthy (assignments n).

(** [Node.required] setter: [self._allocated = value]. *)
Definition required_setter (value : bool) (n : Node) : Node :=
  with_allocated value n.

(** [Node.exists] setter. *)
Definition exists_setter (value : bool) (n : Node) : Node :=
  with_exists value n.

(** [Node.closed] setter:
    [if value: self.__closed = value
     elif self.__closed: raise RuntimeError("Can not unclose a job.")]. *)
Definition closed_setter (value : bool) (n : Node) : Res Node :=
  if value then Ok (with_closed value n)
  else if __closed n then Raise (RuntimeError "Can not unclose a job.")
  else Ok n.

(** ** Placement-group validation

    [re.match("^[a-zA-Z0-9_-]+$", value)].  Strings are byte strings here;
    a character of the class is an ASCII letter, digit, underscore or
    hyphen. *)

Definition in_range (lo hi c : ascii) : bool :=
  (N_of_ascii lo <=? N_of_ascii c)%N && (N_of_ascii c <=? N_of_ascii hi)%N.

Definition pg_class (c : ascii) : bool :=
  in_range "a" "z" c || in_range "A" "Z" c || in_range "0" "9" c
  || Ascii.eqb c "_" || Ascii.eqb c "-".

(** The line feed, [chr(10)]. *)
Definition LF : ascii := ascii_of_nat 10.

(** Python's [$] (without [re.MULTILINE]) matches at the end of the string
    and also just before a line feed that is the last character. *)
Definition at_dollar (rest : string) : bool :=
  match rest with
  | EmptyString => true
  | String c EmptyString => Ascii.eqb c LF
  | String _ (String _ _) => false
  end.

(** [[a-zA-Z0-9_-]*$] from the current position, by backtracking: either
    the anchor matches here, or one more character of the class is
    consumed. *)
Fixpoint match_class_star_dollar (s : string) : bool :=
  at_dollar s
  || match s with
     | EmptyString => false
     | String c r => pg_class c && match_class_star_dollar r
     end.

(** [^[a-zA-Z0-9_-]+$]: one character of the class, then the above. *)
Definition re_match_placement_group (s : string) : bool :=
  match s with
  | EmptyString => false
  | String c r => pg_class c && match_class_star_dollar r
  end.

(** Truthiness of an [Optional[str]]: [None] and [""] are false. *)
Definition opt_truthy (v : option string) : bool :=
  match v with Some s => str_truthy s | None => false end.

(** [Node.placement_group] setter. *)
Definition placement_group_setter (value : option string) (n : Node) : Res Node :=
  (* if isinstance(value, str) and not value: value = None *)
  let value := if opt_truthy value then value else None in
  if opt_truthy (__placement_group n)
     && negb (bool_decide (value = __placement_group n))
     && exists_ n
  then Raise (RuntimeError "Can not change the placement group of an existing node")
  else
    match value with
    | Some v =>
        if negb (re_match_placement_group v)
        then Raise (RuntimeError "Invalid placement_group - must only contain letters, numbers, '-' or '_'")
        else Ok (with_placement_group value n)
    | None => Ok (with_placement_group value n)
    end.

(** [Node.__init__], restricted to the modelled attributes.
    [resources or ResourceDict({})] is [resources]; [deepcopy] is the
    identity on immutable values. *)
Definition Node_init (resources : gmap string PyVal) (exists' : bool)
    (placement_group' : option string) (keep_alive' : bool) : Res Node :=
  let self := mkNode resources resources exists' None false false ∅ ∅ ∅ keep_alive' in
  (* call the setter for extra validation *)
  placement_group_setter placement_group' self.

(** [Node.node_attribute_overrides]: the same mapping whether or not the
    node exists (a read-only view of it when it does). *)
Definition node_attribute_overrides (n : Node) : gmap string PyVal :=
  __node_attribute_overrides n.

(** [bool(v)] for a stored value. *)
Definition py_truthy (v : PyVal) : bool :=
  match v with
  | VNone => false
  | VBool b => b
  | VInt z => negb (z =? 0)%Z
  | VStr s => str_truthy s
  end.

(** [ret.update(v)] on a dictionary, for a stored value [v] that is
    truthy: none of the modelled values is a mapping, so the call raises,
    [TypeError] for a bool or an int (not iterable) and [ValueError] for a
    non-empty string (its elements have length 1, not 2). *)
Definition dict_update_error (v : PyVal) : Exn :=
  match v with
  | VStr _ => ValueError "dictionary update sequence element #0 has length 1; 2 is required"
  | _ => TypeError "object is not iterable"
  end.

(** [Node.software_configuration], as far as the modelled state goes: the
    configuration mapping itself is not part of [Node] (no other modelled
    method reads it), so the result says only whether the read returns.
    With no truthy [Configuration] override the stored mapping is returned;
    with one, [ret.update(overrides["Configuration"])] is called on it. *)
Definition software_configuration (self : Node) : Res unit :=
  let overrides := node_attribute_overrides self in
  if negb (bool_decide (overrides = ∅))
     && py_truthy (default VNone (overrides !! "Configuration"))
  then Raise (dict_update_error (default VNone (overrides !! "Configuration")))
  else Ok tt.

(** [Node.clone].  [d.update(e)] on dictionaries is the union that prefers
    the bindings of [e].  The arguments of the constructor are evaluated
    first, [deepcopy(self.software_configuration)] among them, so an error
    of that read comes before the validation of the placement group.  The
    collaborators that are not part of the sources at hand
    ([DelayedNodeId.clone], the lookup of [vm_sizes]) are taken to return,
    as they did when [self] was built. *)
Definition clone (self : Node) : Res Node :=
  match software_configuration self with
  | Raise e => Raise e
  | Ok _ =>
      match Node_init (_resources self) (exists_ self) (placement_group self)
                      (__keep_alive self) with
      | Raise e => Raise e
      | Ok ret =>
          let ret := with_available (available self ∪ available ret) ret in
          let ret := with_metadata (metadata self ∪ metadata ret) ret in
          Ok (if negb (exists_ self)
              then with_node_attribute_overrides
                     (node_attribute_overrides self ∪ node_attribute_overrides ret) ret
              else ret)
      end
  end.

(** [Node.assign]. *)
Definition assign (assignment_id : string) (self : Node) : Node :=
  with_assignments ({[assignment_id]} ∪ __assignments self) self.

(** ** The constraint interface *)

(** Modelled from the spec: the value returned by [satisfied_by_node]
    ([hpc.autoscale.node.constraints] and [hpc.autoscale.results] are not
    part of the sources at hand).  [decrement] reads two things from it:
    its truth value, and, when the object has one ([hasattr]), its
    [reasons] attribute; a plain [bool] has none. *)
Record SatisfiedResult : Type := mkSatisfiedResult {
  sr_bool : bool;
  sr_reasons : option (list string)
}.

(** Modelled from the spec: the [NodeConstraint] interface (section 4.1;
    the class itself is not part of the sources at hand).
    [satisfied_by_node] and [minimum_space] read the node; [do_decrement]
    mutates it and reports whether it succeeded. *)
Module NodeConstraint.
Record t : Type := mk {
  satisfied_by_node : Node → SatisfiedResult;
  minimum_space : Node → Z;
  do_decrement : Node → bool * Node
}.
End NodeConstraint.

(** Modelled from the spec: [MatchResult] (section 6; the class is not
    part of the sources at hand): the status string, the slot count and
    the reasons given to the constructor, no reasons when the argument is
    omitted.  The [node=self] argument is the state the call leaves. *)
Record MatchResult : Type := mkMatchResult {
  status : string;
  slots : Z;
  reasons : list string
}.

(** ** A monad for methods that call into constraints

    A computation reads and writes the node, may raise, and records which
    constraint methods it called, by the position of the constraint in
    the list.  An exception leaves the state as it was when raised. *)

Inductive Call : Type :=
| CallSatisfiedByNode (k : nat)
| CallMinimumSpace (k : nat)
| CallDoDecrement (k : nat).

Definition M (A : Type) : Type := Node → Res A * Node * list Call.

Definition ret {A} (a : A) : M A := λ n, (Ok a, n, []).

Definition bind {A B} (m : M A) (f : A → M B) : M B :=
  λ n,
    match m n with
    | (Ok a, n', t) => let '(r, n'', t') := f a n' in (r, n'', (t ++ t')%list)
    | (Raise e, n', t) => (Raise e, n', t)
    end.

Definition raise {A} (e : Exn) : M A := λ n, (Raise e, n, []).
Definition get_self : M Node := λ n, (Ok n, n, []).
Definition modify_self (f : Node → Node) : M unit := λ n, (Ok tt, f n, []).

Declare Scope node_scope.
Delimit Scope node_scope with node.
Notation "'let*' x ':=' m 'in' k" := (bind m (λ x, k))
  (at level 10, x pattern, m at level 100, k at level 200) : node_scope.
Local Open Scope node_scope.

Definition call_satisfied_by_node (k : nat) (c : NodeConstraint.t) : M SatisfiedResult :=
  λ n, (Ok (NodeConstraint.satisfied_by_node c n), n, [CallSatisfiedByNode k]).

Definition call_minimum_space (k : nat) (c : NodeConstraint.t) : M Z :=
  λ n, (Ok (NodeConstraint.minimum_space c n), n, [CallMinimumSpace k]).

Definition call_do_decrement (k : nat) (c : NodeConstraint.t) : M bool :=
  λ n, let '(ok, n') := NodeConstraint.do_decrement c n in
       (Ok ok, n', [CallDoDecrement k]).

(** ** [minimum_space(constraints, node)]

    The loop of the function, from the constraint at position [k] on, with
    the local variable [min_space] ([None] or an integer).  The values a
    constraint returns are integers, so [assert constraint_min_space is
    not None] and the [isinstance] assertions of [decrement] hold; the
    [hpcwrap] decorator leaves the function as it is. *)
Fixpoint minimum_space_loop (k : nat) (constraints : list NodeConstraint.t)
    (min_space : option Z) : M (option Z) :=
  match constraints with
  | [] => ret min_space
  | constraint :: rest =>
      let* constraint_min_space := call_minimum_space k constraint in
      if (constraint_min_space >? -1)%Z then
        let min_space := match min_space with
                         | None => constraint_min_space
                         | Some m => m
                         end in
        minimum_space_loop (S k) rest (Some (Z.min min_space constraint_min_space))
      else minimum_space_loop (S k) rest min_space
  end.

Definition minimum_space (constraints : list NodeConstraint.t) : M Z :=
  (* min_space = None if constraints else 1 *)
  let min_space := match constraints with [] => Some 1%Z | _ :: _ => None end in
  let* min_space := minimum_space_loop 0 constraints min_space in
  ret (match min_space with None => (-1)%Z | Some m => m end).

(** ** [Node.decrement] *)

(** The first loop: every constraint is asked, the flag and the reasons
    accumulate. *)
Fixpoint satisfied_loop (k : nat) (constraints : list NodeConstraint.t)
    (is_unsatisfied : bool) (reasons : list string) : M (bool * list string) :=
  match constraints with
  | [] => ret (is_unsatisfied, reasons)
  | constraint :: rest =>
      let* result := call_satisfied_by_node k constraint in
      if negb (sr_bool result) then
        satisfied_loop (S k) rest true
          (match sr_reasons result with
           | Some rs => (reasons ++ rs)%list
           | None => reasons
           end)
      else satisfied_loop (S k) rest is_unsatisfied reasons
  end.

(** [for i in range(to_pack): assert constraint.do_decrement(self), msg];
    the message is built, and [satisfied_by_node] called for it, only when
    the assertion fails. *)
Fixpoint do_decrement_loop (k : nat) (constraint : NodeConstraint.t)
    (times : nat) : M unit :=
  match times with
  | O => ret tt
  | S times' =>
      let* ok := call_do_decrement k constraint in
      if ok then do_decrement_loop k constraint times'
      else
        let* _ := call_satisfied_by_node k constraint in
        raise (AssertionError "calculated minimum space but failed")
  end.

Fixpoint pack_loop (k : nat) (constraints : list NodeConstraint.t)
    (to_pack : Z) : M unit :=
  match constraints with
  | [] => ret tt
  | constraint :: rest =>
      let* _ := do_decrement_loop k constraint (Z.to_nat to_pack) in
      pack_loop (S k) rest to_pack
  end.

(** [uuid4] stands for the string [str(uuid4())] would produce. *)
Definition decrement (constraints : list NodeConstraint.t) (iterations : Z)
    (assignment_id : option string) (uuid4 : string) : M MatchResult :=
  let* self := get_self in
  if closed self then ret (mkMatchResult "NodeClosed" iterations [])
  else
    let assignment_id := if opt_truthy assignment_id
                         then default uuid4 assignment_id else uuid4 in
    let* (is_unsatisfied, reasons) := satisfied_loop 0 constraints false [] in
    if is_unsatisfied : bool then
      ret (mkMatchResult "NodeRejected" iterations reasons)
    else
      let* min_space := minimum_space constraints in
      let min_space := if (min_space =? -1)%Z then iterations else min_space in
      let to_pack := Z.min iterations min_space in
      let* _ := pack_loop 0 constraints to_pack in
      let* _ := modify_self (with_allocated true) in
      let* _ := modify_self (λ n, with_assignments ({[assignment_id]} ∪ __assignments n) n) in
      ret (mkMatchResult "success" to_pack []).

(** ** [Node.update] *)

(** The two levels [update] logs at ([hpc.autoscale.hpclogging]). *)
Inductive Level : Type := FINE | WARNING.

(** One call of [logging.log(level, "Updating %s.%s: %s->%s", self, attr,
    current_value, new_value)]. *)
Record LogRecord : Type := mkLogRecord {
  log_level : Level;
  log_attr : string;
  log_current : PyVal;
  log_new : PyVal
}.

Definition is_none (v : PyVal) : bool :=
  match v with VNone => true | _ => false end.

(** [d.get(attr)]: [None] when the key is missing. *)
Definition dict_get (d : gmap string PyVal) (attr : string) : PyVal :=
  default VNone (d !! attr).

(** The body of the loop over [snode.available.items()]. *)
Definition update_log (self snode : Node) (item : string * PyVal) : list LogRecord :=
  let '(attr, new_value) := item in
  let current_value := dict_get (available self) attr in
  if negb (py_eqb current_value new_value) then
    let level := if is_none current_value || set_truthy (assignments snode)
                 then FINE else WARNING in
    [mkLogRecord level attr current_value new_value]
  else [].

(** [self.update(snode)]: the node it leaves and the records it logs (one
    per item of [snode.available], in the order [map_to_list] lists
    them). *)
Definition update (snode : Node) (self : Node) : Node * list LogRecord :=
  let log := flat_map (update_log self snode) (map_to_list (available snode)) in
  let self := with_available (available snode ∪ available self) self in
  let self := required_setter
                (required self || required snode || set_truthy (assignments snode))
                self in
  let self := with_assignments (__assignments self ∪ assignments snode) self in
  let self := with_metadata (metadata snode ∪ metadata self) self in
  (self, log).

(** ** The operations of the core, as a transition system *)

Inductive Op : Type :=
| OpDecrement (constraints : list NodeConstraint.t) (iterations : Z)
              (assignment_id : option string) (uuid4 : string)
| OpAssign (assignment_id : string)
| OpUpdate (snode : Node)
| OpClone
| OpSetRequired (value : bool)
| OpSetClosed (value : bool)
| OpSetExists (value : bool)
| OpSetPlacementGroup (value : option string).

(** An assignment [node.closed = value], keeping the node when it raises. *)
Definition try_set_closed (self : Node) (value : bool) : Node :=
  match closed_setter value self with Ok n => n | Raise _ => self end.

(** The node an operation was called on, as the call leaves it, also when
    the call raises. *)
Definition self_after (self : Node) (op : Op) : Node :=
  match op with
  | OpDecrement cs it aid u => (decrement cs it aid u self).1.2
  | OpAssign aid => assign aid self
  | OpUpdate snode => (update snode self).1
  | OpClone => self
  | OpSetRequired v => required_setter v self
  | OpSetClosed v => try_set_closed self v
  | OpSetExists v => exists_setter v self
  | OpSetPlacementGroup v =>
      match placement_group_setter v self with Ok n => n | Raise _ => self end
  end.

(** The nodes an operation leaves behind: the node it was called on and
    the node [clone] creates. *)
Definition nodes_after (op : Op) (self : Node) : list Node :=
  self_after self op
  :: match op with
     | OpClone => match clone self with Ok ret => [ret] | Raise _ => [] end
     | _ => []
     end.

(** ** The packing limit as the specification words it *)

Definition unsatisfied (n : Node) (c : NodeConstraint.t) : bool :=
  negb (sr_bool (NodeConstraint.satisfied_by_node c n)).

(** The [MinimumSpace] values that are not the sentinel. *)
Definition finite_spaces (cs : list NodeConstraint.t) (n : Node) : list Z :=
  filter (λ z, (-1 < z)%Z) (map (λ c, NodeConstraint.minimum_space c n) cs).

(** "the minimum over the finite MinimumSpace values, and [iterations]
    when every constraint returns -1". *)
Definition spec_min_space (cs : list NodeConstraint.t) (iterations : Z) (n : Node) : Z :=
  match finite_spaces cs n with
  | [] => iterations
  | z :: zs => foldr Z.min z zs
  end.

Definition spec_to_pack (cs : list NodeConstraint.t) (iterations : Z) (n : Node) : Z :=
  Z.min iterations (spec_min_space cs iterations n).

(** ** What the code computes, without the monad *)

(** The reasons the first loop of [decrement] collects. *)
Definition collected_reasons (cs : list NodeConstraint.t) (n : Node) : list string :=
  flat_map (λ c, let result := NodeConstraint.satisfied_by_node c n in
                 if sr_bool result then [] else default [] (sr_reasons result)) cs.

Definition min_space_step (min_space : option Z) (constraint_min_space : Z) : option Z :=
  if (constraint_min_space >? -1)%Z
  then Some (Z.min (default constraint_min_space min_space) constraint_min_space)
  else min_space.

Definition minimum_space_value (cs : list NodeConstraint.t) (n : Node) : Z :=
  default (-1)%Z
    (fold_left min_space_step (map (λ c, NodeConstraint.minimum_space c n) cs)
               (match cs with [] => Some 1%Z | _ :: _ => None end)).

Definition to_pack_value (cs : list NodeConstraint.t) (iterations : Z) (n : Node) : Z :=
  let min_space := minimum_space_value cs n in
  Z.min iterations (if (min_space =? -1)%Z then iterations else min_space).

Definition satisfied_calls (cs : list NodeConstraint.t) : list Call :=
  CallSatisfiedByNode <$> seq 0 (List.length cs).

Definition minimum_space_calls (cs : list NodeConstraint.t) : list Call :=
  CallMinimumSpace <$> seq 0 (List.length cs).

(** [to_pack] calls of [do_decrement] for each constraint in turn. *)
Definition do_decrement_calls (k : nat) (cs : list NodeConstraint.t) (to_pack : Z) : list Call :=
  flat_map (λ i, replicate (Z.to_nat to_pack) (CallDoDecrement i)) (seq k (List.length cs)).

Definition chosen_assignment_id (assignment_id : option string) (uuid4 : string) : string :=
  if opt_truthy assignment_id then default uuid4 assignment_id else uuid4.

(** The node a successful [decrement] leaves, given the node the packing
    loops left. *)
Definition success_node (assignment_id : option string) (uuid4 : string) (n : Node) : Node :=
  let n := with_allocated true n in
  with_assignments ({[chosen_assignment_id assignment_id uuid4]} ∪ __assignments n) n.

(** Every character is of the class [[a-zA-Z0-9_-]]. *)
Fixpoint all_class (s : string) : bool :=
  match s with
  | EmptyString => true
  | String c r => pg_class c && all_class r
  end.

(** What the setter stores: [None] or a value the pattern accepts. *)
Definition placement_group_valid (n : Node) : Prop :=
  match placement_group n with
  | None => True
  | Some v => re_match_placement_group v = true
  end.

(** ** Fixtures: the scenarios of the specification *)

Definition slots_of (n : Node) : Z :=
  match available n !! "slots" with Some (VInt z) => z | _ => 0%Z end.

(** A constraint on the [slots] resource: one slot per unit. *)
Definition slots_constraint : NodeConstraint.t :=
  NodeConstraint.mk
    (λ n, mkSatisfiedResult (0 <? slots_of n)%Z (Some ["no slots left"]))
    slots_of
    (λ n, if (0 <? slots_of n)%Z
          then (true, with_available (<["slots" := VInt (slots_of n - 1)]> (available n)) n)
          else (false, n)).

(** A constraint that is never satisfied and gives a reason. *)
Definition gpu_constraint : NodeConstraint.t :=
  NodeConstraint.mk
    (λ _, mkSatisfiedResult false (Some ["insufficient GPU"]))
    (λ _, 0%Z)
    (λ n, (false, n)).

(** A constraint whose [satisfied_by_node] returns the plain [False]. *)
Definition plain_false_constraint : NodeConstraint.t :=
  NodeConstraint.mk
    (λ _, mkSatisfiedResult false None)
    (λ _, 0%Z)
    (λ n, (false, n)).

(** A satisfied constraint that promises two units and delivers none. *)
Definition broken_constraint : NodeConstraint.t :=
  NodeConstraint.mk
    (λ _, mkSatisfiedResult true None)
    (λ _, 2%Z)
    (λ n, (false, n)).

(** A satisfied, unbounded constraint. *)
Definition unbounded_constraint : NodeConstraint.t :=
  NodeConstraint.mk
    (λ _, mkSatisfiedResult true None)
    (λ _, (-1)%Z)
    (λ n, (true, n)).

(** A planned node with four slots. *)
Definition node_a : Node :=
  mkNode {["slots" := VInt 4]} {["slots" := VInt 4]} false None false false ∅ ∅ ∅ false.

(** [pg] followed by a line feed. *)
Definition pg_newline : string := String "p" (String "g" (String LF EmptyString)).

(** ** [Node.colocated] and [Node.set_placement_group_escaped] *)

(** [Node.colocated]: [bool(self.placement_group)]. *)
Definition colocated (n : Node) : bool := opt_truthy (placement_group n).

(** The characters [re.sub("[^a-zA-z0-9-_]", "_", value)] leaves alone:
    the ranges [a-z], [A-z] (as written: from [A] up to the lower-case
    [z]), [0-9], and the literals [-] and [_]. *)
Definition escape_class (c : ascii) : bool :=
  in_range "a" "z" c || in_range "A" "z" c || in_range "0" "9" c
  || Ascii.eqb c "-" || Ascii.eqb c "_".

(** [re.sub("[^a-zA-z0-9-_]", "_", value)]: every character outside the
    class becomes an underscore. *)
Fixpoint re_sub_escape (value : string) : string :=
  match value with
  | EmptyString => EmptyString
  | String c r => String (if escape_class c then c else "_"%char) (re_sub_escape r)
  end.

(** [Node.set_placement_group_escaped]: the value it returns and the node
    it leaves. *)
Definition set_placement_group_escaped (value : option string) (self : Node)
    : Res (option string) * Node :=
  let value := if opt_truthy value then re_sub_escape <$> value else value in
  match placement_group_setter value self with
  | Ok n => (Ok (placement_group n), n)
  | Raise e => (Raise e, self)
  end.

(** An assignment [node.placement_group = value], keeping the node when
    it raises. *)
Definition try_set_placement_group (self : Node) (value : option string) : Node :=
  match placement_group_setter value self with Ok n => n | Raise _ => self end.

(** The characters the escaping leaves alone and the setter refuses. *)
Definition slips_through (c : ascii) : bool := escape_class c && negb (pg_class c).

(** ** Constraints that leave the assignments alone *)

(** [do_decrement] removes no assignment from the node. *)
Definition keeps_assignments (c : NodeConstraint.t) : Prop :=
  ∀ m, assignments m ⊆ assignments (NodeConstraint.do_decrement c m).2.

Definition op_keeps_assignments (op : Op) : Prop :=
  match op with
  | OpDecrement cs _ _ _ => Forall keeps_assignments cs
  | _ => True
  end.

(** ** [DemandPrinter] ([src/hpc/autoscale/job/demandprinter.py]) *)

(** [":" in expr] and [expr.split(":", 1)] in one: [None] when there is
    no colon, else the text before the first colon and the text after
    it. *)
Fixpoint split_colon (expr : string) : option (string * string) :=
  match expr with
  | EmptyString => None
  | String c r =>
      if Ascii.eqb c ":" then Some (EmptyString, r)
      else match split_colon r with
           | Some (column, default_value) => Some (String c column, default_value)
           | None => None
           end
  end.

(** [str.lower] on a string of ASCII characters. *)
Definition lower_char (c : ascii) : ascii :=
  if in_range "A" "Z" c then ascii_of_N (N_of_ascii c + 32) else c.

Fixpoint lower (s : string) : string :=
  match s with
  | EmptyString => EmptyString
  | String c r => String (lower_char c) (lower r)
  end.

(** The state of a [DemandPrinter]; the output stream is left out. *)
Record DemandPrinter : Type := mkDemandPrinter {
  column_names : list string;
  __defaults : gmap string string;
  json : bool
}.

(** The loop of [DemandPrinter.__init__] over [column_names_list]: an
    entry [column:default] is replaced by [column] in the list and the
    default is stored under [column]. *)
Fixpoint strip_defaults (column_names_list : list string)
    (defaults : gmap string string) : list string * gmap string string :=
  match column_names_list with
  | [] => ([], defaults)
  | expr :: rest =>
      match split_colon expr with
      | Some (column, default_value) =>
          let '(cols, d) := strip_defaults rest (<[column := default_value]> defaults) in
          (column :: cols, d)
      | None =>
          let '(cols, d) := strip_defaults rest defaults in
          (expr :: cols, d)
      end
  end.

(** [DemandPrinter.__init__]: the printer, and the list the caller passed
    as the loop leaves it (the loop writes into that very list). *)
Definition DemandPrinter_init (column_names' : option (list string)) (json' : bool)
    : DemandPrinter * list string :=
  let column_names_list := default [] column_names' in
  let '(column_names_list, defaults) := strip_defaults column_names_list ∅ in
  (mkDemandPrinter (map lower column_names_list) defaults json', column_names_list).

(** [len] of a cell. *)
Definition len (s : string) : nat := String.length s.

(** [for n in range(len(row)): maxes[n] = max(len(row[n]), maxes[n])],
    from index [n] on; [None] is the [IndexError] of [maxes[n]] past the
    end of [maxes]. *)
Fixpoint calc_width_row (n : nat) (row : list string) (maxes : list nat)
    : option (list nat) :=
  match row with
  | [] => Some maxes
  | cell :: rest =>
      match maxes !! n with
      | None => None
      | Some m => calc_width_row (S n) rest (<[n := Nat.max (len cell) m]> maxes)
      end
  end.

Fixpoint calc_width_rows (rows : list (list string)) (maxes : list nat)
    : option (list nat) :=
  match rows with
  | [] => Some maxes
  | row :: rest =>
      match calc_width_row 0 row maxes with
      | None => None
      | Some maxes' => calc_width_rows rest maxes'
      end
  end.

(** [DemandPrinter._calc_width]. *)
Definition _calc_width (columns : list string) (rows : list (list string))
    : option (list nat) :=
  calc_width_rows rows (map len columns).

(** [list.remove(x)] when [x] is in the list: the first occurrence goes. *)
Fixpoint remove_first (x : string) (l : list string) : list string :=
  match l with
  | [] => []
  | y :: r => if String.eqb y x then r else y :: remove_first x r
  end.

(** The column list [print_demand] works with, from [self.column_names]:
    [available] and [node] are dropped, [assigned_job_ids] is renamed, and
    [name] is moved to the front. *)
Definition demand_columns (columns : list string) : list string :=
  let columns := filter (λ c, c ∉ ["available"; "node"]) columns in
  let columns := map (λ c, if String.eqb c "assigned_job_ids" then "job_ids" else c)
                     columns in
  if bool_decide ("name" ∈ columns)
  then "name" :: remove_first "name" columns
  else columns.

(** ** More fixtures *)

(** A satisfied constraint with no room left: minimum space 0, and a
    [do_decrement] that would fail. *)
Definition full_constraint : NodeConstraint.t :=
  NodeConstraint.mk
    (λ _, mkSatisfiedResult true None)
    (λ _, 0%Z)
    (λ n, (false, n)).

(** * Properties *)

(** ** Record updates and getters *)

Lemma with_placement_group_id n : with_placement_group (__placement_group n) n = n.
Proof. by destruct n. Qed.

Lemma with_closed_id n : with_closed (__closed n) n = n.
Proof. by destruct n. Qed.

Lemma set_truthy_spec (s : gset string) : set_truthy s = true ↔ s ≠ ∅.
Proof.
  unfold set_truthy. rewrite negb_true_iff, bool_decide_eq_false. done.
Qed.

Lemma set_truthy_union_singleton (x : string) (s : gset string) :
  set_truthy ({[x]} ∪ s) = true.
Proof. apply set_truthy_spec. set_solver. Qed.

(** ** The loops of [decrement] and of [minimum_space] *)

Section Loops.
Variable n : Node.

Lemma satisfied_loop_spec cs : ∀ k is_unsatisfied rs,
  satisfied_loop k cs is_unsatisfied rs n =
    (Ok (is_unsatisfied || existsb (unsatisfied n) cs,
         (rs ++ collected_reasons cs n)%list),
     n, CallSatisfiedByNode <$> seq k (List.length cs)).
Proof.
  induction cs as [|c cs IH]; intros k u rs; simpl.
  - by rewrite orb_false_r, app_nil_r.
  - unfold bind, call_satisfied_by_node, unsatisfied at 1.
    destruct (sr_bool (NodeConstraint.satisfied_by_node c n)) eqn:Hc; simpl;
      rewrite IH; simpl.
    + done.
    + rewrite orb_true_r. destruct (sr_reasons _); simpl;
        by rewrite <- ?app_assoc.
Qed.

Lemma minimum_space_loop_spec cs : ∀ k min_space,
  minimum_space_loop k cs min_space n =
    (Ok (fold_left min_space_step
           (map (λ c, NodeConstraint.minimum_space c n) cs) min_space),
     n, CallMinimumSpace <$> seq k (List.length cs)).
Proof.
  induction cs as [|c cs IH]; intros k ms; simpl; [done|].
  unfold bind, call_minimum_space, min_space_step at 2.
  destruct (NodeConstraint.minimum_space c n >? -1)%Z; rewrite IH; simpl;
    by destruct ms.
Qed.

Lemma minimum_space_spec cs :
  minimum_space cs n = (Ok (minimum_space_value cs n), n, minimum_space_calls cs).
Proof.
  unfold minimum_space, bind. rewrite minimum_space_loop_spec. simpl.
  by rewrite app_nil_r.
Qed.
End Loops.

(** The packing loops either complete, having called [do_decrement]
    [times] times, or raise the assertion error. *)
Lemma do_decrement_loop_cases k c times : ∀ n,
  (∃ n', do_decrement_loop k c times n
         = (Ok tt, n', replicate times (CallDoDecrement k)))
  ∨ (∃ msg n' t, do_decrement_loop k c times n = (Raise (AssertionError msg), n', t)).
Proof.
  induction times as [|times IH]; intros n; simpl.
  - left. by exists n.
  - unfold bind, call_do_decrement.
    destruct (NodeConstraint.do_decrement c n) as [[|] n1]; simpl.
    + destruct (IH n1) as [[n' ->]|(msg & n' & t & ->)]; simpl; eauto 6.
    + right. eauto.
Qed.

Lemma pack_loop_cases cs to_pack : ∀ k n,
  (∃ n', pack_loop k cs to_pack n = (Ok tt, n', do_decrement_calls k cs to_pack))
  ∨ (∃ msg n' t, pack_loop k cs to_pack n = (Raise (AssertionError msg), n', t)).
Proof.
  induction cs as [|c cs IH]; intros k n; simpl.
  - left. by exists n.
  - unfold bind.
    destruct (do_decrement_loop_cases k c (Z.to_nat to_pack) n)
      as [[n1 ->]|(msg & n1 & t & ->)]; [|right; eauto].
    destruct (IH (S k) n1) as [[n' ->]|(msg & n' & t & ->)]; [left|right]; eauto.
Qed.

(** ** [decrement], branch by branch *)

Lemma decrement_unfold cs iterations aid uuid4 n :
  decrement cs iterations aid uuid4 n =
    if closed n then (Ok (mkMatchResult "NodeClosed" iterations []), n, [])
    else if existsb (unsatisfied n) cs
    then (Ok (mkMatchResult "NodeRejected" iterations (collected_reasons cs n)),
          n, satisfied_calls cs)
    else
      let to_pack := to_pack_value cs iterations n in
      match pack_loop 0 cs to_pack n with
      | (Ok _, n', t) =>
          (Ok (mkMatchResult "success" to_pack []), success_node aid uuid4 n',
           (satisfied_calls cs ++ minimum_space_calls cs ++ t)%list)
      | (Raise e, n', t) =>
          (Raise e, n', (satisfied_calls cs ++ minimum_space_calls cs ++ t)%list)
      end.
Proof.
  unfold decrement, bind at 1, get_self.
  destruct (closed n); [done|].
  unfold bind at 1. rewrite satisfied_loop_spec. simpl.
  destruct (existsb (unsatisfied n) cs).
  { unfold ret, satisfied_calls. simpl. by rewrite app_nil_r. }
  unfold bind at 1. rewrite minimum_space_spec. fold (to_pack_value cs iterations n).
  unfold bind, modify_self, ret.
  destruct (pack_loop 0 cs (to_pack_value cs iterations n) n) as [[[[]|e] n'] t];
    simpl; by rewrite ?app_nil_r.
Qed.

(** ** The packing limit of the code and of the specification *)

Lemma fold_min_space_Some vs : ∀ m,
  fold_left min_space_step vs (Some m)
  = Some (fold_left Z.min (filter (λ z, (-1 < z)%Z) vs) m).
Proof.
  induction vs as [|v vs IH]; intros m; simpl; [done|].
  unfold min_space_step at 2. rewrite filter_cons.
  destruct (Z.gtb_spec v (-1)); destruct (decide (-1 < v)%Z); try lia; simpl; apply IH.
Qed.

Lemma fold_min_space_None vs :
  fold_left min_space_step vs None
  = match filter (λ z, (-1 < z)%Z) vs with
    | [] => None
    | z :: zs => Some (fold_left Z.min zs z)
    end.
Proof.
  induction vs as [|v vs IH]; simpl; [done|].
  unfold min_space_step at 2. rewrite filter_cons.
  destruct (Z.gtb_spec v (-1)); destruct (decide (-1 < v)%Z); try lia; simpl.
  - by rewrite Z.min_id, fold_min_space_Some.
  - apply IH.
Qed.

Lemma fold_left_min_foldr zs : ∀ z, fold_left Z.min zs z = foldr Z.min z zs.
Proof.
  induction zs as [|y zs IH]; intros z; simpl; [done|].
  rewrite IH. clear IH. revert z y.
  induction zs as [|x zs IH]; intros z y; simpl; [apply Z.min_comm|].
  rewrite IH. lia.
Qed.

(** [foldr Z.min z zs] is the least element of [z :: zs]. *)
Lemma foldr_min_is_min zs : ∀ z,
  foldr Z.min z zs ∈ z :: zs ∧ ∀ x, x ∈ z :: zs → (foldr Z.min z zs ≤ x)%Z.
Proof.
  induction zs as [|y zs IH]; intros z; simpl.
  - split; [apply list_elem_of_here|]. intros x ->%list_elem_of_singleton. lia.
  - destruct (IH z) as [Hin Hle]. split.
    + apply elem_of_cons in Hin as [Hz|Hin].
      * destruct (Z.min_spec y (foldr Z.min z zs)) as [[_ ->]|[_ ->]].
        -- apply list_elem_of_further, list_elem_of_here.
        -- rewrite Hz. apply list_elem_of_here.
      * destruct (Z.min_spec y (foldr Z.min z zs)) as [[_ ->]|[_ ->]].
        -- apply list_elem_of_further, list_elem_of_here.
        -- by do 2 apply list_elem_of_further.
    + intros x Hx. apply elem_of_cons in Hx as [->|Hx].
      * specialize (Hle z (list_elem_of_here _ _)). lia.
      * apply elem_of_cons in Hx as [->|Hx]; [lia|].
        specialize (Hle x (list_elem_of_further _ _ _ Hx)). lia.
Qed.

(** The limit of the specification is the minimum of the finite values
    when there is one. *)
Lemma spec_min_space_is_min cs iterations n :
  finite_spaces cs n ≠ [] →
  spec_min_space cs iterations n ∈ finite_spaces cs n
  ∧ ∀ x, x ∈ finite_spaces cs n → (spec_min_space cs iterations n ≤ x)%Z.
Proof.
  unfold spec_min_space. destruct (finite_spaces cs n) as [|z zs]; [done|].
  intros _. apply foldr_min_is_min.
Qed.

Lemma spec_min_space_unbounded cs iterations n :
  Forall (λ c, (NodeConstraint.minimum_space c n ≤ -1)%Z) cs →
  spec_min_space cs iterations n = iterations.
Proof.
  intros Hall. unfold spec_min_space, finite_spaces.
  induction Hall as [|c cs Hc _ IH]; simpl; [done|].
  rewrite filter_cons. destruct (decide _); [lia | apply IH].
Qed.

(** On a list with at least one constraint, the number of units the code
    packs is the one the specification gives. *)
Lemma to_pack_value_spec cs iterations n :
  cs ≠ [] → to_pack_value cs iterations n = spec_to_pack cs iterations n.
Proof.
  intros Hcs. unfold to_pack_value, spec_to_pack, minimum_space_value, spec_min_space.
  destruct cs as [|c cs]; [done|]. rewrite fold_min_space_None.
  fold (finite_spaces (c :: cs) n).
  destruct (finite_spaces (c :: cs) n) as [|z zs] eqn:Hfin; simpl; [done|].
  rewrite fold_left_min_foldr.
  destruct (foldr_min_is_min zs z) as [Hin _].
  rewrite <- Hfin in Hin. apply list_elem_of_filter in Hin as [Hgt _].
  destruct (Z.eqb_spec (foldr Z.min z zs) (-1)); [lia | done].
Qed.

(** With no constraint at all the code packs at most one unit. *)
Lemma to_pack_value_nil iterations n :
  to_pack_value [] iterations n = Z.min iterations 1.
Proof. reflexivity. Qed.

Lemma existsb_unsatisfied_false cs n :
  Forall (λ c, sr_bool (NodeConstraint.satisfied_by_node c n) = true) cs →
  existsb (unsatisfied n) cs = false.
Proof.
  induction 1 as [|c cs Hc _ IH]; simpl; [done|].
  unfold unsatisfied at 1. by rewrite Hc, IH.
Qed.

Lemma existsb_unsatisfied_true cs n :
  Exists (λ c, sr_bool (NodeConstraint.satisfied_by_node c n) = false) cs →
  existsb (unsatisfied n) cs = true.
Proof.
  induction 1 as [c cs Hc|c cs _ IH]; simpl.
  - unfold unsatisfied at 1. by rewrite Hc.
  - rewrite IH. apply orb_true_r.
Qed.

(** Constraints whose [do_decrement] always succeeds never trip the
    assertion. *)
Lemma do_decrement_loop_total k c times :
  (∀ m, (NodeConstraint.do_decrement c m).1 = true) →
  ∀ n, is_ok (do_decrement_loop k c times n).1.1 = true.
Proof.
  intros Hc. induction times as [|times IH]; intros n; simpl; [done|].
  unfold bind, call_do_decrement. specialize (Hc n).
  destruct (NodeConstraint.do_decrement c n) as [ok n1]; simpl in *; subst ok.
  specialize (IH n1).
  by destruct (do_decrement_loop k c times n1) as [[[]]].
Qed.

Lemma pack_loop_total cs to_pack :
  Forall (λ c, ∀ m, (NodeConstraint.do_decrement c m).1 = true) cs →
  ∀ k n, is_ok (pack_loop k cs to_pack n).1.1 = true.
Proof.
  induction 1 as [|c cs Hc _ IH]; intros k n; simpl; [done|].
  unfold bind.
  pose proof (do_decrement_loop_total k c (Z.to_nat to_pack) Hc n) as Hok.
  destruct (do_decrement_loop k c (Z.to_nat to_pack) n) as [[[[]|] n1] t]; [|done].
  specialize (IH (S k) n1).
  by destruct (pack_loop (S k) cs to_pack n1) as [[[]]].
Qed.

(** ** Claims about [decrement] *)

(** C1 (as amended).  On a node that is not closed, with at least one
    constraint, all of them satisfied, and every [do_decrement] call of
    the packing loops succeeding, [decrement] returns a [success] result
    whose slot count is [min(iterations, m)], [m] being the minimum of the
    [MinimumSpace] values above -1, or [iterations] when there is none; it
    has called [do_decrement] exactly that many times on each constraint,
    and that count is at most [iterations]. *)
Theorem decrement_packs_spec_to_pack cs iterations aid uuid4 n :
  closed n = false →
  cs ≠ [] →
  Forall (λ c, sr_bool (NodeConstraint.satisfied_by_node c n) = true) cs →
  is_ok (pack_loop 0 cs (spec_to_pack cs iterations n) n).1.1 = true →
  ∃ n',
    decrement cs iterations aid uuid4 n =
      (Ok (mkMatchResult "success" (spec_to_pack cs iterations n) []),
       success_node aid uuid4 n',
       (satisfied_calls cs ++ minimum_space_calls cs
        ++ do_decrement_calls 0 cs (spec_to_pack cs iterations n))%list)
    ∧ (spec_to_pack cs iterations n ≤ iterations)%Z.
Proof.
  intros Hclosed Hcs Hsat Hpack.
  rewrite decrement_unfold, Hclosed, (existsb_unsatisfied_false _ _ Hsat).
  cbv zeta. rewrite (to_pack_value_spec _ _ _ Hcs).
  destruct (pack_loop_cases cs (spec_to_pack cs iterations n) 0 n)
    as [[n' Heq]|(msg & n' & t & Heq)]; rewrite Heq in Hpack |- *; [|done].
  exists n'. split; [done|]. unfold spec_to_pack. lia.
Qed.

Lemma decrement_packs_spec_to_pack_witness :
  ∃ n',
    decrement [slots_constraint] 10 None "u" node_a =
      (Ok (mkMatchResult "success" (spec_to_pack [slots_constraint] 10 node_a) []),
       success_node None "u" n',
       (satisfied_calls [slots_constraint] ++ minimum_space_calls [slots_constraint]
        ++ do_decrement_calls 0 [slots_constraint]
             (spec_to_pack [slots_constraint] 10 node_a))%list)
    ∧ (spec_to_pack [slots_constraint] 10 node_a ≤ 10)%Z.
Proof.
  apply decrement_packs_spec_to_pack.
  - reflexivity.
  - discriminate.
  - repeat constructor.
  - vm_compute. reflexivity.
Defined.

(** C1 as stated fails on two inputs: with no constraint the code packs
    one unit where the stated formula gives [iterations]; and a satisfied
    constraint whose [do_decrement] fails makes the call raise instead of
    returning a result. *)
Lemma decrement_to_pack_counterexample :
  (closed node_a = false
   ∧ (decrement [] 5 None "u" node_a).1.1 = Ok (mkMatchResult "success" 1 [])
   ∧ slots (mkMatchResult "success" 1 []) ≠ spec_to_pack [] 5 node_a)
  ∧ (closed node_a = false
     ∧ Forall (λ c, sr_bool (NodeConstraint.satisfied_by_node c node_a) = true)
              [broken_constraint]
     ∧ (decrement [broken_constraint] 5 None "u" node_a).1.1
       = Raise (AssertionError "calculated minimum space but failed")).
Proof.
  repeat split; try reflexivity; [discriminate | repeat constructor].
Qed.

(** The collected reasons are not empty exactly when an unsatisfied
    constraint reports at least one reason. *)
Lemma collected_reasons_nonempty cs n :
  collected_reasons cs n ≠ [] ↔
  Exists (λ c, sr_bool (NodeConstraint.satisfied_by_node c n) = false
               ∧ ∃ r rs, sr_reasons (NodeConstraint.satisfied_by_node c n)
                         = Some (r :: rs)) cs.
Proof.
  unfold collected_reasons. induction cs as [|c cs IH]; simpl.
  - split; [done | by intros ?%Exists_nil].
  - rewrite Exists_cons, <- IH. clear IH.
    destruct (sr_bool (NodeConstraint.satisfied_by_node c n)); simpl.
    + split; [by right | by intros [[? _]|?]].
    + destruct (sr_reasons (NodeConstraint.satisfied_by_node c n)) as [[|r rs]|];
        simpl.
      * split; [by right | by intros [(_ & ? & ? & ?)|?]].
      * split; [left; eauto | done].
      * split; [by right | by intros [(_ & ? & ? & ?)|?]].
Qed.

(** C2 (as amended).  On a node that is not closed, when at least one
    constraint is unsatisfied, [decrement] has called [satisfied_by_node]
    once on every constraint, in order, and nothing else; it returns a
    [NodeRejected] result whose reasons are those of all the unsatisfied
    constraints, in order; it leaves the node as it was; and the reasons
    are non-empty exactly when some unsatisfied constraint reports one. *)
Theorem decrement_rejected cs iterations aid uuid4 n :
  closed n = false →
  Exists (λ c, sr_bool (NodeConstraint.satisfied_by_node c n) = false) cs →
  decrement cs iterations aid uuid4 n =
    (Ok (mkMatchResult "NodeRejected" iterations (collected_reasons cs n)),
     n, CallSatisfiedByNode <$> seq 0 (List.length cs))
  ∧ (collected_reasons cs n ≠ [] ↔
     Exists (λ c, sr_bool (NodeConstraint.satisfied_by_node c n) = false
                  ∧ ∃ r rs, sr_reasons (NodeConstraint.satisfied_by_node c n)
                            = Some (r :: rs)) cs).
Proof.
  intros Hclosed Hunsat. split; [|apply collected_reasons_nonempty].
  by rewrite decrement_unfold, Hclosed, (existsb_unsatisfied_true _ _ Hunsat).
Qed.

Lemma decrement_rejected_witness :
  decrement [slots_constraint; gpu_constraint; plain_false_constraint; gpu_constraint]
            1 None "u" node_a =
    (Ok (mkMatchResult "NodeRejected" 1 ["insufficient GPU"; "insufficient GPU"]),
     node_a,
     [CallSatisfiedByNode 0; CallSatisfiedByNode 1;
      CallSatisfiedByNode 2; CallSatisfiedByNode 3]).
Proof.
  refine (proj1 (decrement_rejected
                   [slots_constraint; gpu_constraint; plain_false_constraint;
                    gpu_constraint] 1 None "u" node_a _ _)).
  - reflexivity.
  - apply Exists_cons_tl, Exists_cons_hd. reflexivity.
Defined.

(** C2 as stated fails: an unsatisfied constraint that returns the plain
    [False], or a result without reasons, leaves the reasons empty. *)
Lemma decrement_rejected_counterexample :
  closed node_a = false
  ∧ sr_bool (NodeConstraint.satisfied_by_node plain_false_constraint node_a) = false
  ∧ (decrement [plain_false_constraint] 1 None "u" node_a).1.1
    = Ok (mkMatchResult "NodeRejected" 1 []).
Proof. repeat split. Qed.

(** C3.  On a closed node [decrement] returns a [NodeClosed] result whose
    slot count is [iterations], calls no constraint method, and leaves the
    node, its [available] mapping and its assignments as they were. *)
Theorem decrement_closed cs iterations aid uuid4 n :
  closed n = true →
  (1 ≤ iterations)%Z →
  decrement cs iterations aid uuid4 n =
    (Ok (mkMatchResult "NodeClosed" iterations []), n, [])
  ∧ available (decrement cs iterations aid uuid4 n).1.2 = available n
  ∧ assignments (decrement cs iterations aid uuid4 n).1.2 = assignments n.
Proof.
  intros Hclosed _. by rewrite decrement_unfold, Hclosed.
Qed.

Lemma decrement_closed_witness :
  decrement [slots_constraint] 3 None "u" (with_closed true node_a) =
    (Ok (mkMatchResult "NodeClosed" 3 []), with_closed true node_a, [])
  ∧ available (decrement [slots_constraint] 3 None "u" (with_closed true node_a)).1.2
    = available (with_closed true node_a)
  ∧ assignments (decrement [slots_constraint] 3 None "u" (with_closed true node_a)).1.2
    = assignments (with_closed true node_a).
Proof.
  apply decrement_closed; [reflexivity | lia].
Defined.

(** C4 (as amended).  Whenever [decrement] returns a [NodeRejected]
    result, its slot count is the requested [iterations]. *)
Theorem decrement_rejected_slots cs iterations aid uuid4 n r n' t :
  decrement cs iterations aid uuid4 n = (Ok r, n', t) →
  status r = "NodeRejected" →
  slots r = iterations.
Proof.
  rewrite decrement_unfold. intros Hdec Hstatus.
  destruct (closed n); [by simplify_eq|].
  destruct (existsb (unsatisfied n) cs); [by simplify_eq|].
  cbv zeta in Hdec.
  destruct (pack_loop 0 cs (to_pack_value cs iterations n) n) as [[[[]|e] n1] t1];
    by simplify_eq.
Qed.

Lemma decrement_rejected_slots_witness :
  slots (mkMatchResult "NodeRejected" 3 ["insufficient GPU"]) = 3%Z.
Proof.
  apply (decrement_rejected_slots [gpu_constraint] 3 None "u" node_a
           (mkMatchResult "NodeRejected" 3 ["insufficient GPU"]) node_a
           [CallSatisfiedByNode 0]);
    reflexivity.
Defined.

(** C4 as stated fails: a rejection of a request for three units reports
    three slots, not zero. *)
Lemma decrement_rejected_slots_counterexample :
  (decrement [gpu_constraint] 3 None "u" node_a).1.1
  = Ok (mkMatchResult "NodeRejected" 3 ["insufficient GPU"])
  ∧ slots (mkMatchResult "NodeRejected" 3 ["insufficient GPU"]) ≠ 0%Z.
Proof. split; [reflexivity | discriminate]. Qed.

(** C9.  On a node that is not closed, with an empty constraint list and
    [iterations >= 1], [minimum_space] returns 1 and [decrement] returns a
    [success] result with one slot, [min(iterations, 1)], having marked
    the node allocated and recorded the assignment. *)
Theorem decrement_no_constraints iterations aid uuid4 n :
  closed n = false →
  (1 ≤ iterations)%Z →
  minimum_space [] n = (Ok 1%Z, n, [])
  ∧ Z.min iterations 1 = 1%Z
  ∧ decrement [] iterations aid uuid4 n =
      (Ok (mkMatchResult "success" 1 []), success_node aid uuid4 n, []).
Proof.
  intros Hclosed Hit. split; [done|]. split; [lia|].
  rewrite decrement_unfold, Hclosed. simpl. rewrite to_pack_value_nil.
  by replace (Z.min iterations 1) with 1%Z by lia.
Qed.

Lemma decrement_no_constraints_witness :
  minimum_space [] node_a = (Ok 1%Z, node_a, [])
  ∧ Z.min 7 1 = 1%Z
  ∧ decrement [] 7 (Some "job-1") "u" node_a =
      (Ok (mkMatchResult "success" 1 []), success_node (Some "job-1") "u" node_a, []).
Proof.
  apply decrement_no_constraints; [reflexivity | lia].
Defined.

(** ** The placement-group setter *)

Lemma pg_class_LF : pg_class LF = false.
Proof. reflexivity. Qed.

Lemma match_class_star_dollar_spec s :
  match_class_star_dollar s = true ↔
  ∃ body, all_class body = true ∧ (s = body ∨ s = body ++ String LF EmptyString).
Proof.
  split.
  - induction s as [|c r IH]; simpl.
    + exists EmptyString. auto.
    + intros [Hd|[Hc Hr]%andb_true_iff]%orb_true_iff.
      * destruct r; [|done]. apply Ascii.eqb_eq in Hd as ->.
        exists EmptyString. auto.
      * destruct (IH Hr) as (body & Hbody & Hs).
        exists (String c body). simpl. rewrite Hc, Hbody.
        split; [done|]. destruct Hs as [->| ->]; auto.
  - intros (body & Hbody & Hs).
    assert (match_class_star_dollar body = true
            ∧ match_class_star_dollar (body ++ String LF EmptyString) = true)
      as [H1 H2]; [|by destruct Hs as [->| ->]].
    clear s Hs. induction body as [|c b IH]; [done|].
    simpl in Hbody. apply andb_true_iff in Hbody as [Hc Hb].
    destruct (IH Hb) as [H1 H2]. simpl. rewrite Hc, H1, H2. simpl.
    by rewrite !orb_true_r.
Qed.

(** What the pattern accepts: a non-empty run of characters of the class,
    possibly followed by one line feed. *)
Lemma re_match_placement_group_spec s :
  re_match_placement_group s = true ↔
  ∃ body, body ≠ EmptyString ∧ all_class body = true
          ∧ (s = body ∨ s = body ++ String LF EmptyString).
Proof.
  unfold re_match_placement_group. split.
  - destruct s as [|c r]; [done|].
    intros [Hc Hr]%andb_true_iff.
    apply match_class_star_dollar_spec in Hr as (body & Hbody & Hs).
    exists (String c body). simpl. rewrite Hc, Hbody.
    repeat split; [done|]. destruct Hs as [->| ->]; auto.
  - intros (body & Hne & Hbody & Hs).
    destruct body as [|c b]; [done|]. simpl in Hbody.
    apply andb_true_iff in Hbody as [Hc Hb].
    assert (match_class_star_dollar b = true
            ∧ match_class_star_dollar (b ++ String LF EmptyString) = true) as [H1 H2].
    { split; apply match_class_star_dollar_spec; exists b; auto. }
    destruct Hs as [->| ->]; simpl; rewrite Hc; simpl; done.
Qed.

(** A value made of characters of the class only is accepted. *)
Lemma re_match_placement_group_all_class s :
  s ≠ EmptyString → all_class s = true → re_match_placement_group s = true.
Proof.
  intros Hne Hs. apply re_match_placement_group_spec. exists s. auto.
Qed.

(** A character that is neither of the class nor a line feed makes the
    pattern fail, wherever it is; a space and [!] are such characters. *)
Lemma match_class_star_dollar_chars s c :
  match_class_star_dollar s = true →
  In c (list_ascii_of_string s) → pg_class c = true ∨ c = LF.
Proof.
  induction s as [|a r IH]; simpl; [done|].
  intros [Hd|[Ha Hr]%andb_true_iff]%orb_true_iff [->|Hin].
  - destruct r; [|done]. apply Ascii.eqb_eq in Hd. auto.
  - by destruct r.
  - auto.
  - auto.
Qed.

Lemma re_match_placement_group_rejects s c :
  In c (list_ascii_of_string s) → pg_class c = false → c ≠ LF →
  re_match_placement_group s = false.
Proof.
  intros Hin Hc Hlf. apply not_true_is_false. intros Hm.
  destruct s as [|a r]; [done|]. simpl in Hm, Hin.
  apply andb_true_iff in Hm as [Ha Hr]. destruct Hin as [->|Hin]; [congruence|].
  destruct (match_class_star_dollar_chars r c Hr Hin); congruence.
Qed.

Lemma re_match_placement_group_truthy s :
  re_match_placement_group s = true → str_truthy s = true.
Proof. by destruct s. Qed.

(** Setting an accepted value on a node whose placement group is unset
    succeeds. *)
Lemma placement_group_setter_unset v n :
  opt_truthy (placement_group n) = false →
  re_match_placement_group v = true →
  placement_group_setter (Some v) n = Ok (with_placement_group (Some v) n).
Proof.
  intros Hunset Hv. unfold placement_group_setter, placement_group in *. simpl.
  rewrite (re_match_placement_group_truthy _ Hv), Hunset, Hv. done.
Qed.

(** A non-empty value the pattern does not accept raises, whatever the
    state of the node. *)
Lemma placement_group_setter_invalid v n :
  str_truthy v = true →
  re_match_placement_group v = false →
  ∃ msg, placement_group_setter (Some v) n = Raise (RuntimeError msg).
Proof.
  intros Hv Hm. unfold placement_group_setter. simpl. rewrite Hv, Hm. simpl.
  destruct (_ && _ && _); eauto.
Qed.

(** Setting the value the node already has changes nothing. *)
Lemma placement_group_setter_same v n :
  placement_group n = Some v →
  re_match_placement_group v = true →
  placement_group_setter (Some v) n = Ok n.
Proof.
  intros Hpg Hv. unfold placement_group_setter, placement_group in *. simpl.
  rewrite (re_match_placement_group_truthy _ Hv), Hpg, Hv.
  rewrite bool_decide_eq_true_2 by done. rewrite andb_false_r. simpl.
  by rewrite <- Hpg, with_placement_group_id.
Qed.

(** Changing the placement group of an existing node raises. *)
Lemma placement_group_setter_change_existing value n :
  opt_truthy (placement_group n) = true →
  exists_ n = true →
  (if opt_truthy value then value else None) ≠ placement_group n →
  placement_group_setter value n
  = Raise (RuntimeError "Can not change the placement group of an existing node").
Proof.
  intros Hset Hex Hne. unfold placement_group_setter, placement_group in *.
  rewrite Hset, Hex, bool_decide_eq_false_2 by done. done.
Qed.

(** Before the node exists the placement group may still change. *)
Lemma placement_group_setter_change_planned v n :
  exists_ n = false →
  re_match_placement_group v = true →
  placement_group_setter (Some v) n = Ok (with_placement_group (Some v) n).
Proof.
  intros Hex Hv. unfold placement_group_setter. simpl.
  rewrite (re_match_placement_group_truthy _ Hv), Hex, Hv, andb_false_r. done.
Qed.

(** The setter only ever stores [None] or a value the pattern accepts. *)
Lemma placement_group_setter_valid value n n' :
  placement_group_setter value n = Ok n' → placement_group_valid n'.
Proof.
  unfold placement_group_setter, placement_group_valid.
  destruct (_ && _ && _); [done|].
  destruct (if opt_truthy value then value else None) as [v|]; simpl.
  - destruct (re_match_placement_group v) eqn:Hv; simpl; [|done].
    by intros [= <-].
  - by intros [= <-].
Qed.

(** C5, at the failing input.  The line feed is not a character of the
    class, yet the setter accepts and stores [pg] followed by a line feed,
    on a planned node and on an existing one alike: the [$] of the pattern
    also matches just before a final line feed. *)
Theorem placement_group_setter_trailing_newline :
  pg_class LF = false
  ∧ In LF (list_ascii_of_string pg_newline)
  ∧ placement_group node_a = None
  ∧ placement_group_setter (Some pg_newline) node_a
    = Ok (with_placement_group (Some pg_newline) node_a)
  ∧ placement_group_setter (Some pg_newline) (exists_setter true node_a)
    = Ok (with_placement_group (Some pg_newline) (exists_setter true node_a)).
Proof.
  repeat split; try reflexivity. simpl. auto.
Qed.

(** The other inputs C5 names behave as it says. *)
Example placement_group_examples :
  placement_group_setter (Some "cluster-1_A") node_a
    = Ok (with_placement_group (Some "cluster-1_A") node_a)
  ∧ is_ok (placement_group_setter (Some "my group") node_a) = false
  ∧ is_ok (placement_group_setter (Some "group!") node_a) = false
  ∧ is_ok (placement_group_setter (Some "pg2")
             (exists_setter true (with_placement_group (Some "pg1") node_a))) = false
  ∧ is_ok (placement_group_setter None
             (exists_setter true (with_placement_group (Some "pg1") node_a))) = false
  ∧ placement_group_setter (Some "pg1")
      (exists_setter true (with_placement_group (Some "pg1") node_a))
    = Ok (exists_setter true (with_placement_group (Some "pg1") node_a)).
Proof. repeat split; reflexivity. Qed.

(** ** [update] *)

Lemma set_truthy_union (a b : gset string) :
  set_truthy (a ∪ b) = set_truthy a || set_truthy b.
Proof.
  apply eq_true_iff_eq. rewrite orb_true_iff, !set_truthy_spec.
  split.
  - intros Hne. destruct (decide (a = ∅)) as [->|]; [|by left].
    right. by rewrite (left_id_L ∅ (∪)) in Hne.
  - intros [Ha|Hb] Hu; apply empty_union_L in Hu as [? ?]; done.
Qed.

Lemma update_log_in self snode item r :
  r ∈ update_log self snode item ↔
  py_eqb (dict_get (available self) item.1) item.2 = false
  ∧ r = mkLogRecord
          (if is_none (dict_get (available self) item.1)
              || set_truthy (assignments snode)
           then FINE else WARNING)
          item.1 (dict_get (available self) item.1) item.2.
Proof.
  destruct item as [attr new_value]. unfold update_log. simpl.
  destruct (py_eqb (dict_get (available self) attr) new_value); simpl.
  - split; [by intros ?%elem_of_nil | by intros [? _]].
  - rewrite list_elem_of_singleton. split; [by intros -> | by intros [_ ->]].
Qed.

(** C6.  [update] overwrites [self.available] with every binding of
    [snode.available], stores in the allocated flag (and so reads back
    from [required]) the disjunction of [self.required], [snode.required]
    and the non-emptiness of [snode.assignments], adds the assignments of
    [snode], merges its metadata, and logs one record for each binding of
    [snode.available] that differs from the current value: at [FINE] when
    the current value is [None] or [snode] has assignments, at [WARNING]
    otherwise. *)
Theorem update_merges snode self :
  (∀ k, available (update snode self).1 !! k
        = match available snode !! k with
          | Some v => Some v
          | None => available self !! k
          end)
  ∧ _allocated (update snode self).1
    = required self || required snode || set_truthy (assignments snode)
  ∧ required (update snode self).1
    = required self || required snode || set_truthy (assignments snode)
  ∧ assignments (update snode self).1 = assignments self ∪ assignments snode
  ∧ (∀ k, metadata (update snode self).1 !! k
          = match metadata snode !! k with
            | Some v => Some v
            | None => metadata self !! k
            end)
  ∧ (∀ r, r ∈ (update snode self).2 ↔
          ∃ attr new_value,
            available snode !! attr = Some new_value
            ∧ py_eqb (dict_get (available self) attr) new_value = false
            ∧ r = mkLogRecord
                    (if is_none (dict_get (available self) attr)
                        || set_truthy (assignments snode)
                     then FINE else WARNING)
                    attr (dict_get (available self) attr) new_value).
Proof.
  repeat split.
  - intros k. unfold available. simpl.
    destruct (__available snode !! k) eqn:Hk.
    + by apply lookup_union_Some_l.
    + by apply lookup_union_r.
  - unfold update, required_setter, required, assignments. simpl.
    rewrite set_truthy_union.
    destruct (__keep_alive self), (_allocated self),
      (set_truthy (__assignments self)), (__keep_alive snode),
      (_allocated snode), (set_truthy (__assignments snode)); reflexivity.
  - intros k. unfold metadata. simpl.
    destruct (__metadata snode !! k) eqn:Hk.
    + by apply lookup_union_Some_l.
    + by apply lookup_union_r.
  - simpl. rewrite list_elem_of_In, in_flat_map.
    intros ([attr new_value] & Hin & Hr).
    apply list_elem_of_In, elem_of_map_to_list in Hin.
    apply list_elem_of_In, update_log_in in Hr as [Hne ->].
    exists attr, new_value. done.
  - simpl. intros (attr & new_value & Hin & Hne & ->).
    rewrite list_elem_of_In, in_flat_map. exists (attr, new_value). split.
    + by apply list_elem_of_In, elem_of_map_to_list.
    + apply list_elem_of_In, update_log_in. done.
Qed.

(** Scenario D: the refreshed value replaces the old one and the change
    is logged as a warning. *)
Example update_scenario_d :
  available
    (update (with_available {["mem" := VInt 8]} node_a)
            (with_available {["mem" := VInt 16]} node_a)).1 !! "mem"
  = Some (VInt 8)
  ∧ (update (with_available {["mem" := VInt 8]} node_a)
            (with_available {["mem" := VInt 16]} node_a)).2
    = [mkLogRecord WARNING "mem" (VInt 16) (VInt 8)].
Proof. split; reflexivity. Qed.

(** ** The flags *)

(** C7.  On every node a non-empty assignment set makes [required] read
    true, and so it does on every node an operation of the core leaves
    behind: the node [decrement], [assign], [update], [clone] or a setter
    was called on (also when the call raised), and the node [clone]
    returns. *)
Theorem assignments_imply_required n :
  (assignments n ≠ ∅ → required n = true)
  ∧ ∀ op n', n' ∈ nodes_after op n → assignments n' ≠ ∅ → required n' = true.
Proof.
  unfold required.
  split; [intros Hne | intros _ n' _ Hne];
    apply set_truthy_spec in Hne as ->; apply orb_true_r.
Qed.

Lemma assignments_imply_required_witness :
  required (decrement [slots_constraint] 2 (Some "job-2") "u" node_a).1.2 = true.
Proof.
  apply (proj2 (assignments_imply_required node_a)
           (OpDecrement [slots_constraint] 2 (Some "job-2") "u")).
  - apply list_elem_of_here.
  - apply set_truthy_spec. vm_compute. reflexivity.
Defined.

(** The flag is also set where the operations add to the set: a
    successful [decrement] and [assign] leave a non-empty set. *)
Lemma assign_assignments aid n : set_truthy (assignments (assign aid n)) = true.
Proof. apply set_truthy_union_singleton. Qed.

Lemma success_node_required aid uuid4 n :
  set_truthy (assignments (success_node aid uuid4 n)) = true
  ∧ _allocated (success_node aid uuid4 n) = true
  ∧ required (success_node aid uuid4 n) = true.
Proof.
  unfold required, success_node. simpl.
  rewrite set_truthy_union_singleton, orb_true_r. done.
Qed.

(** No operation of the core reopens a closed node: [decrement] returns
    before it calls any constraint, and only the [closed] setter writes
    the flag. *)
Lemma self_after_closed n op : closed n = true → closed (self_after n op) = true.
Proof.
  intros Hclosed. destruct op as [cs it aid u| | | | |[]| |v]; simpl; try done.
  - by rewrite decrement_unfold, Hclosed.
  - unfold try_set_closed, closed_setter, closed in *. by rewrite Hclosed.
  - unfold placement_group_setter.
    destruct (_ && _ && _); [done|].
    destruct (if opt_truthy v then v else None) as [s|]; [|done].
    by destruct (negb (re_match_placement_group s)).
Qed.

(** C8.  Setting [closed] to true always succeeds and leaves it true;
    setting it to false on a node that is not closed succeeds and changes
    nothing; on a closed node it raises, and after any sequence of
    operations, assignments to [closed] among them, the node is still
    closed and still refuses to be reopened. *)
Theorem closed_monotonic n :
  (closed_setter true n = Ok (with_closed true n)
   ∧ closed (with_closed true n) = true)
  ∧ (closed n = false → closed_setter false n = Ok n)
  ∧ (closed n = true →
     ∀ ops,
       closed (foldl self_after n ops) = true
       ∧ closed_setter false (foldl self_after n ops)
         = Raise (RuntimeError "Can not unclose a job.")).
Proof.
  split; [done|]. split.
  - unfold closed_setter, closed. by intros ->.
  - intros Hclosed ops. revert n Hclosed.
    induction ops as [|op ops IH]; intros n Hclosed; simpl.
    + unfold closed_setter, closed in *. by rewrite Hclosed.
    + by apply IH, self_after_closed.
Qed.

Lemma closed_monotonic_witness :
  closed (foldl self_after (with_closed true node_a)
            [OpSetClosed false; OpDecrement [slots_constraint] 1 None "u";
             OpSetClosed true; OpSetClosed false]) = true
  ∧ closed_setter false
      (foldl self_after (with_closed true node_a)
         [OpSetClosed false; OpDecrement [slots_constraint] 1 None "u";
          OpSetClosed true; OpSetClosed false])
    = Raise (RuntimeError "Can not unclose a job.").
Proof.
  apply (proj2 (proj2 (closed_monotonic (with_closed true node_a)))).
  reflexivity.
Defined.

(** C10.  On every node the [required] getter is the disjunction of
    [keep_alive], the allocated flag and the non-emptiness of the
    assignments, and the setter writes the allocated flag and nothing
    else, so what is read back after [required = value] is [keep_alive or
    value or bool(assignments)].  On a node kept alive or with assignments,
    [required = False] therefore clears the flag and [required] still reads
    true, as it did before. *)
Theorem required_setter_false n value :
  required n = keep_alive n || _allocated n || set_truthy (assignments n)
  ∧ (_allocated (required_setter value n) = value
     ∧ keep_alive (required_setter value n) = keep_alive n
     ∧ assignments (required_setter value n) = assignments n
     ∧ available (required_setter value n) = available n
     ∧ metadata (required_setter value n) = metadata n
     ∧ closed (required_setter value n) = closed n
     ∧ exists_ (required_setter value n) = exists_ n
     ∧ placement_group (required_setter value n) = placement_group n
     ∧ _resources (required_setter value n) = _resources n
     ∧ node_attribute_overrides (required_setter value n)
       = node_attribute_overrides n)
  ∧ required (required_setter value n)
    = keep_alive n || value || set_truthy (assignments n)
  ∧ (keep_alive n = true ∨ assignments n ≠ ∅ →
     required n = true
     ∧ _allocated (required_setter false n) = false
     ∧ required (required_setter false n) = true).
Proof.
  split; [reflexivity|]. split; [by repeat split|]. split; [reflexivity|].
  unfold required, keep_alive, assignments. simpl.
  intros [-> | ->%set_truthy_spec]; repeat split; rewrite ?orb_true_r; reflexivity.
Qed.

Lemma required_setter_false_witness :
  required (assign "job-1" node_a) = true
  ∧ _allocated (required_setter false (assign "job-1" node_a)) = false
  ∧ required (required_setter false (assign "job-1" node_a)) = true.
Proof.
  apply (proj2 (proj2 (proj2 (required_setter_false (assign "job-1" node_a) false)))).
  right. apply set_truthy_spec. vm_compute. reflexivity.
Defined.

(** * Further properties of the code *)

(** ** [minimum_space] *)

Lemma finite_spaces_elem cs n x :
  x ∈ finite_spaces cs n ↔
  (-1 < x)%Z ∧ ∃ c, c ∈ cs ∧ NodeConstraint.minimum_space c n = x.
Proof.
  unfold finite_spaces. rewrite list_elem_of_filter, list_elem_of_In, in_map_iff.
  split; intros [Hx (c & Hc1 & Hc2)]; (split; [done|]); exists c.
  - by rewrite list_elem_of_In.
  - by rewrite <- list_elem_of_In.
Qed.

(** On a non-empty list the value is the sentinel when no constraint gives
    a value above -1, and the least such value otherwise. *)
Lemma minimum_space_value_cases c cs n :
  (finite_spaces (c :: cs) n = [] ∧ minimum_space_value (c :: cs) n = (-1)%Z)
  ∨ (minimum_space_value (c :: cs) n ∈ finite_spaces (c :: cs) n
     ∧ ∀ x, x ∈ finite_spaces (c :: cs) n → (minimum_space_value (c :: cs) n ≤ x)%Z).
Proof.
  unfold minimum_space_value. rewrite fold_min_space_None.
  fold (finite_spaces (c :: cs) n).
  destruct (finite_spaces (c :: cs) n) as [|z zs]; [by left|].
  right. simpl. rewrite fold_left_min_foldr. apply foldr_min_is_min.
Qed.

(** X1.  [minimum_space] always returns, having asked every constraint
    once and left the node alone.  Its value is 1 for the empty list; for
    a non-empty list it is -1 when no constraint gives a value above -1,
    and otherwise the least value above -1 that a constraint gives. *)
Theorem minimum_space_result cs n :
  ∃ v, minimum_space cs n = (Ok v, n, CallMinimumSpace <$> seq 0 (List.length cs))
       ∧ (cs = [] → v = 1%Z)
       ∧ (cs ≠ [] →
          (v = (-1)%Z ∧ ∀ c, c ∈ cs → (NodeConstraint.minimum_space c n ≤ -1)%Z)
          ∨ ((-1 < v)%Z
             ∧ (∃ c, c ∈ cs ∧ NodeConstraint.minimum_space c n = v)
             ∧ ∀ c, c ∈ cs → (-1 < NodeConstraint.minimum_space c n)%Z →
                    (v ≤ NodeConstraint.minimum_space c n)%Z)).
Proof.
  exists (minimum_space_value cs n). split; [apply minimum_space_spec|].
  split; [by intros ->|]. intros Hne. destruct cs as [|c cs]; [done|].
  destruct (minimum_space_value_cases c cs n) as [[Hnil ->]|[Hin Hmin]].
  - left. split; [done|]. intros c' Hc'.
    destruct (decide (-1 < NodeConstraint.minimum_space c' n)%Z) as [Hgt|]; [|lia].
    assert (NodeConstraint.minimum_space c' n ∈ finite_spaces (c :: cs) n) as Hx
      by (apply finite_spaces_elem; eauto).
    rewrite Hnil in Hx. by apply elem_of_nil in Hx.
  - right. apply finite_spaces_elem in Hin as [Hgt Hex].
    repeat split; [done..|]. intros c' Hc' Hgt'.
    apply Hmin, finite_spaces_elem. eauto.
Qed.

(** X2.  The value of [minimum_space] does not depend on the order of the
    constraints. *)
Theorem minimum_space_permutation cs cs' n :
  cs ≡ₚ cs' → (minimum_space cs n).1.1 = (minimum_space cs' n).1.1.
Proof.
  intros Hperm. rewrite !minimum_space_spec. simpl. f_equal.
  assert (∀ x, x ∈ finite_spaces cs n ↔ x ∈ finite_spaces cs' n) as Hfin.
  { intros x. rewrite !finite_spaces_elem.
    split; intros [Hx (c & Hc & Heq)]; (split; [done|]); exists c;
      (split; [|done]);
      first [by rewrite <- Hperm | by rewrite Hperm]. }
  destruct cs as [|c cs], cs' as [|c' cs'];
    [done | by apply Permutation_nil_cons in Hperm
          | by symmetry in Hperm; apply Permutation_nil_cons in Hperm |].
  destruct (minimum_space_value_cases c cs n) as [[Hnil ->]|[Hin Hmin]],
    (minimum_space_value_cases c' cs' n) as [[Hnil' ->]|[Hin' Hmin']].
  - done.
  - apply Hfin in Hin'. rewrite Hnil in Hin'. by apply elem_of_nil in Hin'.
  - apply Hfin in Hin. rewrite Hnil' in Hin. by apply elem_of_nil in Hin.
  - apply Z.le_antisymm; [apply Hmin, Hfin, Hin' | apply Hmin', Hfin, Hin].
Qed.

Lemma minimum_space_permutation_witness :
  (minimum_space [slots_constraint; unbounded_constraint; broken_constraint] node_a).1.1
  = (minimum_space [broken_constraint; slots_constraint; unbounded_constraint] node_a).1.1.
Proof.
  apply minimum_space_permutation.
  symmetry.
  apply (Permutation_cons_append [slots_constraint; unbounded_constraint] broken_constraint).
Defined.

(** ** [decrement]: bounds, edge cases and composition *)

Lemma existsb_unsatisfied_Forall cs n :
  existsb (unsatisfied n) cs = false →
  Forall (λ c, sr_bool (NodeConstraint.satisfied_by_node c n) = true) cs.
Proof.
  induction cs as [|c cs IH]; simpl; [constructor|].
  intros [Hc Hcs]%orb_false_iff. constructor; [|by apply IH].
  unfold unsatisfied in Hc. by apply negb_false_iff in Hc.
Qed.

(** What [to_pack] can be, from what the constraints say. *)
Lemma to_pack_value_bounds cs iterations n :
  (to_pack_value cs iterations n ≤ iterations)%Z
  ∧ ((0 ≤ iterations)%Z → (0 ≤ to_pack_value cs iterations n)%Z)
  ∧ (cs = [] → (to_pack_value cs iterations n ≤ 1)%Z)
  ∧ ∀ c, c ∈ cs → (-1 < NodeConstraint.minimum_space c n)%Z →
         (to_pack_value cs iterations n ≤ NodeConstraint.minimum_space c n)%Z.
Proof.
  unfold to_pack_value. cbv zeta.
  destruct cs as [|c0 cs].
  - change (minimum_space_value [] n) with 1%Z. simpl.
    repeat split; try lia. intros c Hc. by apply elem_of_nil in Hc.
  - destruct (minimum_space_value_cases c0 cs n) as [[Hnil ->]|[Hin Hmin]].
    + simpl. repeat split; try lia; [done|]. intros c Hc Hgt.
      assert (NodeConstraint.minimum_space c n ∈ finite_spaces (c0 :: cs) n) as Hx
        by (apply finite_spaces_elem; eauto).
      rewrite Hnil in Hx. by apply elem_of_nil in Hx.
    + pose proof Hin as [Hgt _]%finite_spaces_elem.
      destruct (Z.eqb_spec (minimum_space_value (c0 :: cs) n) (-1)); [lia|].
      repeat split; try lia; [done|]. intros c Hc Hgtc.
      assert (minimum_space_value (c0 :: cs) n ≤ NodeConstraint.minimum_space c n)%Z
        by (apply Hmin, finite_spaces_elem; eauto).
      lia.
Qed.

(** X3.  A [success] result never reports more slots than were asked for,
    nor more than any constraint's minimum space above -1, nor more than
    one when there is no constraint; and it reports at least zero when at
    least zero were asked for. *)
Theorem decrement_success_bounds cs iterations aid uuid4 n r n' t :
  decrement cs iterations aid uuid4 n = (Ok r, n', t) →
  status r = "success" →
  (slots r ≤ iterations)%Z
  ∧ ((0 ≤ iterations)%Z → (0 ≤ slots r)%Z)
  ∧ (cs = [] → (slots r ≤ 1)%Z)
  ∧ ∀ c, c ∈ cs → (-1 < NodeConstraint.minimum_space c n)%Z →
         (slots r ≤ NodeConstraint.minimum_space c n)%Z.
Proof.
  rewrite decrement_unfold. intros Hdec Hstatus.
  destruct (closed n); [by simplify_eq|].
  destruct (existsb (unsatisfied n) cs); [by simplify_eq|].
  cbv zeta in Hdec.
  destruct (pack_loop 0 cs (to_pack_value cs iterations n) n) as [[[[]|e] n1] t1];
    simplify_eq.
  apply to_pack_value_bounds.
Qed.

Lemma decrement_success_bounds_witness :
  (slots (mkMatchResult "success" 4 []) ≤ 10)%Z
  ∧ ((0 ≤ 10)%Z → (0 ≤ slots (mkMatchResult "success" 4 []))%Z)
  ∧ ([slots_constraint; unbounded_constraint] = [] →
     (slots (mkMatchResult "success" 4 []) ≤ 1)%Z)
  ∧ ∀ c, c ∈ [slots_constraint; unbounded_constraint] →
         (-1 < NodeConstraint.minimum_space c node_a)%Z →
         (slots (mkMatchResult "success" 4 []) ≤ NodeConstraint.minimum_space c node_a)%Z.
Proof.
  apply (decrement_success_bounds [slots_constraint; unbounded_constraint] 10 None "u"
           node_a (mkMatchResult "success" 4 [])
           (decrement [slots_constraint; unbounded_constraint] 10 None "u" node_a).1.2
           (decrement [slots_constraint; unbounded_constraint] 10 None "u" node_a).2);
    reflexivity.
Defined.

Lemma do_decrement_calls_zero k cs to_pack :
  Z.to_nat to_pack = 0 → do_decrement_calls k cs to_pack = [].
Proof.
  intros Hz. unfold do_decrement_calls. rewrite Hz.
  induction (seq k (List.length cs)) as [|i l IH]; simpl; [done | apply IH].
Qed.

Lemma pack_loop_zero cs to_pack : ∀ k n,
  Z.to_nat to_pack = 0 → pack_loop k cs to_pack n = (Ok tt, n, []).
Proof.
  induction cs as [|c cs IH]; intros k n Hz; simpl; [done|].
  unfold bind. rewrite Hz. simpl. by rewrite IH.
Qed.

(** X4.  A [success] does not mean that anything was packed: on a node
    that is not closed, with every constraint satisfied, when no unit is
    asked for ([iterations <= 0]) or some constraint has minimum space 0,
    [decrement] calls no [do_decrement], reports a slot count of at most
    zero, and still marks the node allocated and records the
    assignment. *)
Theorem decrement_nothing_to_pack cs iterations aid uuid4 n :
  closed n = false →
  Forall (λ c, sr_bool (NodeConstraint.satisfied_by_node c n) = true) cs →
  (iterations ≤ 0)%Z ∨ (∃ c, c ∈ cs ∧ NodeConstraint.minimum_space c n = 0%Z) →
  ∃ s, (s ≤ 0)%Z
       ∧ decrement cs iterations aid uuid4 n =
           (Ok (mkMatchResult "success" s []), success_node aid uuid4 n,
            ((CallSatisfiedByNode <$> seq 0 (List.length cs))
             ++ (CallMinimumSpace <$> seq 0 (List.length cs)))%list)
       ∧ required (success_node aid uuid4 n) = true
       ∧ assignments (success_node aid uuid4 n)
         = {[chosen_assignment_id aid uuid4]} ∪ assignments n.
Proof.
  intros Hclosed Hsat Hzero.
  exists (to_pack_value cs iterations n).
  assert (to_pack_value cs iterations n ≤ 0)%Z as Hle.
  { destruct (to_pack_value_bounds cs iterations n) as (Hit & _ & _ & Hms).
    destruct Hzero as [?|(c & Hc & Hc0)]; [lia|].
    specialize (Hms c Hc). lia. }
  split; [done|].
  rewrite decrement_unfold, Hclosed, (existsb_unsatisfied_false _ _ Hsat).
  cbv zeta. rewrite pack_loop_zero by lia. rewrite app_nil_r.
  split; [done|]. split; [apply success_node_required | done].
Qed.

Lemma decrement_nothing_to_pack_witness :
  ∃ s, (s ≤ 0)%Z
       ∧ decrement [unbounded_constraint; full_constraint] 5 None "u" node_a
         = (Ok (mkMatchResult "success" s []), success_node None "u" node_a,
            ((CallSatisfiedByNode <$> seq 0 2) ++ (CallMinimumSpace <$> seq 0 2))%list)
       ∧ required (success_node None "u" node_a) = true
       ∧ assignments (success_node None "u" node_a)
         = {[chosen_assignment_id None "u"]} ∪ assignments node_a.
Proof.
  apply (decrement_nothing_to_pack [unbounded_constraint; full_constraint]).
  - reflexivity.
  - repeat constructor.
  - right. exists full_constraint. split; [|reflexivity].
    apply list_elem_of_further, list_elem_of_here.
Defined.

(** X5.  A refusal is repeatable: when [decrement] returns a result that
    is not a [success], it has left the node as it was, and the same call
    on the node it left returns the same result after the same calls. *)
Theorem decrement_refusal_repeats cs iterations aid uuid4 n r n' t :
  decrement cs iterations aid uuid4 n = (Ok r, n', t) →
  status r ≠ "success" →
  n' = n ∧ decrement cs iterations aid uuid4 n' = (Ok r, n', t).
Proof.
  intros Hdec Hstatus. assert (n' = n) as ->; [|done].
  rewrite decrement_unfold in Hdec.
  destruct (closed n); [by simplify_eq|].
  destruct (existsb (unsatisfied n) cs); [by simplify_eq|].
  cbv zeta in Hdec.
  destruct (pack_loop 0 cs (to_pack_value cs iterations n) n) as [[[[]|e] n1] t1];
    by simplify_eq.
Qed.

Lemma decrement_refusal_repeats_witness :
  node_a = node_a
  ∧ decrement [slots_constraint; gpu_constraint] 2 None "u" node_a
    = (Ok (mkMatchResult "NodeRejected" 2 ["insufficient GPU"]), node_a,
       [CallSatisfiedByNode 0; CallSatisfiedByNode 1]).
Proof.
  apply (decrement_refusal_repeats [slots_constraint; gpu_constraint] 2 None "u" node_a);
    [reflexivity | discriminate].
Defined.

(** X6.  [decrement] raises nothing but the assertion error of the packing
    loops, and only when there was something to pack: the node is not
    closed, every constraint was satisfied, there is a constraint, at
    least one unit was asked for, and no constraint has minimum space
    0. *)
Theorem decrement_raises_only_assertion cs iterations aid uuid4 n e n' t :
  decrement cs iterations aid uuid4 n = (Raise e, n', t) →
  (∃ msg, e = AssertionError msg)
  ∧ closed n = false
  ∧ Forall (λ c, sr_bool (NodeConstraint.satisfied_by_node c n) = true) cs
  ∧ cs ≠ []
  ∧ (0 < iterations)%Z
  ∧ ∀ c, c ∈ cs → NodeConstraint.minimum_space c n ≠ 0%Z.
Proof.
  rewrite decrement_unfold. intros Hdec.
  destruct (closed n); [by simplify_eq|].
  destruct (existsb (unsatisfied n) cs) eqn:Hsat; [by simplify_eq|].
  cbv zeta in Hdec.
  destruct (Z.to_nat (to_pack_value cs iterations n)) eqn:Hz.
  { rewrite pack_loop_zero in Hdec by done. by simplify_eq. }
  destruct (pack_loop_cases cs (to_pack_value cs iterations n) 0 n)
    as [[n1 Heq]|(msg & n1 & t1 & Heq)]; rewrite Heq in Hdec; simplify_eq.
  destruct (to_pack_value_bounds cs iterations n) as (Hit & _ & _ & Hms).
  split; [eauto|]. split; [done|]. split; [by apply existsb_unsatisfied_Forall|].
  split.
  { intros ->. rewrite pack_loop_zero in Heq by done. by simplify_eq. }
  split; [lia|]. intros c Hc Hc0. specialize (Hms c Hc). lia.
Qed.

Lemma decrement_raises_only_assertion_witness :
  (∃ msg, AssertionError "calculated minimum space but failed" = AssertionError msg)
  ∧ closed node_a = false
  ∧ Forall (λ c, sr_bool (NodeConstraint.satisfied_by_node c node_a) = true)
           [slots_constraint; broken_constraint]
  ∧ [slots_constraint; broken_constraint] ≠ []
  ∧ (0 < 3)%Z
  ∧ ∀ c, c ∈ [slots_constraint; broken_constraint] →
         NodeConstraint.minimum_space c node_a ≠ 0%Z.
Proof.
  apply (decrement_raises_only_assertion [slots_constraint; broken_constraint] 3 None "u"
           node_a _
           (decrement [slots_constraint; broken_constraint] 3 None "u" node_a).1.2
           (decrement [slots_constraint; broken_constraint] 3 None "u" node_a).2).
  reflexivity.
Defined.

(** X7.  After a [success] the node is allocated and required and holds
    the assignment: the caller's identifier when it gave a non-empty one,
    and the generated one when it gave none or the empty string. *)
Theorem decrement_success_records_assignment cs iterations aid uuid4 n r n' t :
  decrement cs iterations aid uuid4 n = (Ok r, n', t) →
  status r = "success" →
  _allocated n' = true
  ∧ required n' = true
  ∧ (∀ s, aid = Some s → s ≠ EmptyString → s ∈ assignments n')
  ∧ (aid = None ∨ aid = Some EmptyString → uuid4 ∈ assignments n').
Proof.
  rewrite decrement_unfold. intros Hdec Hstatus.
  destruct (closed n); [by simplify_eq|].
  destruct (existsb (unsatisfied n) cs); [by simplify_eq|].
  cbv zeta in Hdec.
  destruct (pack_loop 0 cs (to_pack_value cs iterations n) n) as [[[[]|e] n1] t1];
    simplify_eq.
  destruct (success_node_required aid uuid4 n1) as (_ & Halloc & Hreq).
  split; [done|]. split; [done|].
  unfold success_node, assignments, chosen_assignment_id. simpl. split.
  - intros s -> Hs. destruct s; [done|]. simpl. set_solver.
  - intros [-> | ->]; simpl; set_solver.
Qed.

Lemma decrement_success_records_assignment_witness :
  _allocated (decrement [slots_constraint] 2 (Some "job-7") "u" node_a).1.2 = true
  ∧ required (decrement [slots_constraint] 2 (Some "job-7") "u" node_a).1.2 = true
  ∧ (∀ s, Some "job-7" = Some s → s ≠ EmptyString →
          s ∈ assignments (decrement [slots_constraint] 2 (Some "job-7") "u" node_a).1.2)
  ∧ (Some "job-7" = None ∨ Some "job-7" = Some EmptyString →
     "u" ∈ assignments (decrement [slots_constraint] 2 (Some "job-7") "u" node_a).1.2).
Proof.
  apply (decrement_success_records_assignment [slots_constraint] 2 (Some "job-7") "u"
           node_a (mkMatchResult "success" 2 []) _
           (decrement [slots_constraint] 2 (Some "job-7") "u" node_a).2);
    reflexivity.
Defined.

(** ** Assignments only grow *)

Lemma do_decrement_loop_keeps k c times :
  keeps_assignments c →
  ∀ n, assignments n ⊆ assignments (do_decrement_loop k c times n).1.2.
Proof.
  intros Hc. induction times as [|times IH]; intros n; simpl; [done|].
  unfold bind, call_do_decrement. specialize (Hc n).
  destruct (NodeConstraint.do_decrement c n) as [[|] n1]; simpl in *.
  - specialize (IH n1).
    destruct (do_decrement_loop k c times n1) as [[[[]|e] n2] t2]; simpl in *;
      by etrans.
  - done.
Qed.

Lemma pack_loop_keeps cs to_pack :
  Forall keeps_assignments cs →
  ∀ k n, assignments n ⊆ assignments (pack_loop k cs to_pack n).1.2.
Proof.
  induction 1 as [|c cs Hc _ IH]; intros k n; simpl; [done|].
  unfold bind.
  pose proof (do_decrement_loop_keeps k c (Z.to_nat to_pack) Hc n) as H1.
  destruct (do_decrement_loop k c (Z.to_nat to_pack) n) as [[[[]|e] n1] t1];
    simpl in *; [|done].
  specialize (IH (S k) n1).
  destruct (pack_loop (S k) cs to_pack n1) as [[[[]|e] n2] t2]; simpl in *;
    by etrans.
Qed.

Lemma self_after_keeps n op :
  op_keeps_assignments op → assignments n ⊆ assignments (self_after n op).
Proof.
  destruct op as [cs it aid u|aid|snode| |v|v|v|v]; simpl; intros Hop.
  - rewrite decrement_unfold.
    destruct (closed n); [done|].
    destruct (existsb (unsatisfied n) cs); [done|]. cbv zeta.
    pose proof (pack_loop_keeps cs (to_pack_value cs it n) Hop 0 n) as Hk.
    destruct (pack_loop 0 cs (to_pack_value cs it n) n) as [[[[]|e] n1] t1];
      simpl in *; [|done].
    unfold success_node, assignments in *. simpl. set_solver.
  - unfold assign, assignments. simpl. set_solver.
  - unfold assignments. simpl. set_solver.
  - done.
  - done.
  - unfold try_set_closed, closed_setter. by destruct v, (__closed n).
  - done.
  - unfold placement_group_setter.
    destruct (_ && _ && _); [done|].
    destruct (if opt_truthy v then v else None) as [s|]; [|done].
    by destruct (negb (re_match_placement_group s)).
Qed.

(** X8.  Assignments only grow: through any sequence of operations of the
    core ([decrement] with constraints whose [do_decrement] removes no
    assignment, [assign], [update], [clone], the setters), every
    assignment the node had is still there, and a node that had one is
    still required. *)
Theorem assignments_only_grow n ops :
  Forall op_keeps_assignments ops →
  assignments n ⊆ assignments (foldl self_after n ops)
  ∧ (assignments n ≠ ∅ → required (foldl self_after n ops) = true).
Proof.
  intros Hops.
  assert (assignments n ⊆ assignments (foldl self_after n ops)) as Hsub.
  { revert n. induction Hops as [|op ops Hop _ IH]; intros n; simpl; [done|].
    etrans; [by apply self_after_keeps | apply IH]. }
  split; [done|]. intros Hne. unfold required.
  assert (set_truthy (assignments (foldl self_after n ops)) = true) as ->;
    [|apply orb_true_r].
  apply set_truthy_spec. set_solver.
Qed.

Lemma slots_constraint_keeps_assignments : keeps_assignments slots_constraint.
Proof. intros m. simpl. by destruct (0 <? slots_of m)%Z. Qed.

Lemma assignments_only_grow_witness :
  assignments (assign "job-1" node_a)
  ⊆ assignments (foldl self_after (assign "job-1" node_a)
                   [OpDecrement [slots_constraint] 2 None "u";
                    OpSetRequired false; OpUpdate node_a; OpSetClosed true])
  ∧ (assignments (assign "job-1" node_a) ≠ ∅ →
     required (foldl self_after (assign "job-1" node_a)
                 [OpDecrement [slots_constraint] 2 None "u";
                  OpSetRequired false; OpUpdate node_a; OpSetClosed true]) = true).
Proof.
  apply assignments_only_grow.
  repeat constructor. apply slots_constraint_keeps_assignments.
Defined.

(** ** [update]: composition and what it leaves alone *)

Lemma py_eqb_refl v : py_eqb v v = true.
Proof.
  destruct v as [|b|z|s]; simpl; [done | by destruct b | apply Z.eqb_refl
                                 | apply String.eqb_refl].
Qed.

Lemma flat_map_nil {A B} (f : A → list B) (l : list A) :
  flat_map f l = [] ↔ ∀ x, x ∈ l → f x = [].
Proof.
  induction l as [|a l IH]; simpl.
  - split; [by intros _ x ?%elem_of_nil | done].
  - split.
    + intros [Ha Hl]%app_eq_nil x [->|Hx]%elem_of_cons; [done | by apply IH].
    + intros Hall. rewrite (Hall a), (proj2 IH); [done| |apply list_elem_of_here].
      intros x Hx. by apply Hall, list_elem_of_further.
Qed.

Lemma length_flat_map_le {A B} (f : A → list B) (l : list A) :
  (∀ x, (List.length (f x) ≤ 1)%nat) →
  (List.length (flat_map f l) ≤ List.length l)%nat.
Proof.
  intros Hf. induction l as [|a l IH]; simpl; [done|].
  rewrite length_app. specialize (Hf a). lia.
Qed.

Lemma update_log_nil self snode attr new_value :
  update_log self snode (attr, new_value) = [] ↔
  py_eqb (dict_get (available self) attr) new_value = true.
Proof.
  unfold update_log.
  by destruct (py_eqb (dict_get (available self) attr) new_value).
Qed.

Lemma Node_ext (a b : Node) :
  _resources a = _resources b → __available a = __available b →
  __exists a = __exists b → __placement_group a = __placement_group b →
  _allocated a = _allocated b → __closed a = __closed b →
  __metadata a = __metadata b →
  __node_attribute_overrides a = __node_attribute_overrides b →
  __assignments a = __assignments b → __keep_alive a = __keep_alive b →
  a = b.
Proof. destruct a, b. simpl. by intros -> -> -> -> -> -> -> -> -> ->. Qed.

(** X9.  [update] is idempotent: a second [update] from the same node
    changes nothing and logs nothing. *)
Theorem update_idempotent snode self :
  update snode (update snode self).1 = ((update snode self).1, []).
Proof.
  assert (flat_map (update_log (update snode self).1 snode)
            (map_to_list (available snode)) = []) as Hlog.
  { apply flat_map_nil. intros [attr new_value] Hin%elem_of_map_to_list.
    apply update_log_nil. unfold dict_get, available in *. simpl.
    rewrite (lookup_union_Some_l _ _ _ _ Hin). simpl. apply py_eqb_refl. }
  unfold update at 1. cbv zeta. rewrite Hlog. f_equal.
  apply Node_ext; unfold update, required_setter, available, assignments, metadata;
    cbn [fst with_metadata with_assignments with_allocated with_available
         _resources __available __exists __placement_group _allocated
         __closed __metadata __node_attribute_overrides __assignments __keep_alive];
    try reflexivity.
  - by rewrite (assoc_L (∪)), (idemp_L (∪)).
  - unfold required, assignments.
    cbn [with_metadata with_assignments with_allocated with_available
         _resources __available __exists __placement_group _allocated
         __closed __metadata __node_attribute_overrides __assignments __keep_alive].
    rewrite set_truthy_union.
    destruct (__keep_alive self), (_allocated self),
      (set_truthy (__assignments self)), (__keep_alive snode),
      (_allocated snode), (set_truthy (__assignments snode)); reflexivity.
  - by rewrite (assoc_L (∪)), (idemp_L (∪)).
  - by rewrite <- (assoc_L (∪)), (idemp_L (∪)).
Qed.


(** X10.  [update] logs nothing exactly when every binding of
    [snode.available] already equals the current value, a missing key
    counting as [None]; and it never logs more records than
    [snode.available] has keys. *)
Theorem update_log_silent snode self :
  ((update snode self).2 = [] ↔
   ∀ attr new_value, available snode !! attr = Some new_value →
                     py_eqb (dict_get (available self) attr) new_value = true)
  ∧ (List.length (update snode self).2 ≤ size (available snode))%nat.
Proof.
  unfold update. cbv zeta. simpl. split.
  - rewrite flat_map_nil. split.
    + intros Hall attr new_value Hin.
      apply (update_log_nil self snode), Hall. by apply elem_of_map_to_list.
    + intros Hall [attr new_value] Hin%elem_of_map_to_list.
      apply update_log_nil. by apply Hall.
  - rewrite <- length_map_to_list. apply length_flat_map_le.
    intros [attr new_value]. unfold update_log. destruct (negb _); simpl; lia.
Qed.

(** ** [clone] *)

Lemma placement_group_valid_truthy n :
  placement_group_valid n →
  (if opt_truthy (placement_group n) then placement_group n else None)
  = placement_group n.
Proof.
  unfold placement_group_valid. destruct (placement_group n) as [v|]; [|done].
  intros Hv. simpl. by rewrite (re_match_placement_group_truthy _ Hv).
Qed.

(** The setter writes the placement group and nothing else. *)
Lemma placement_group_setter_frame value n n' :
  placement_group_setter value n = Ok n' →
  n' = with_placement_group (placement_group n') n.
Proof.
  unfold placement_group_setter. destruct (_ && _ && _); [done|].
  destruct (if opt_truthy value then value else None) as [v|].
  - destruct (negb (re_match_placement_group v)); [done|]. by intros [= <-].
  - by intros [= <-].
Qed.

(** The read of [software_configuration] returns exactly when there is
    no truthy [Configuration] override. *)
Lemma software_configuration_ok self :
  software_configuration self = Ok tt ↔
  py_truthy (dict_get (node_attribute_overrides self) "Configuration") = false.
Proof.
  unfold software_configuration, dict_get.
  destruct (decide (node_attribute_overrides self = ∅)) as [Hemp|Hne].
  - rewrite bool_decide_eq_true_2 by done. rewrite Hemp, lookup_empty. done.
  - rewrite bool_decide_eq_false_2 by done. simpl.
    by destruct (py_truthy _).
Qed.

(** The node [clone] builds from a node whose placement group the setter
    would accept and that has no truthy [Configuration] override. *)
Lemma clone_valid self :
  placement_group_valid self →
  py_truthy (dict_get (node_attribute_overrides self) "Configuration") = false →
  clone self
  = Ok (mkNode (_resources self) (available self ∪ _resources self)
          (exists_ self) (placement_group self) false false
          (metadata self ∪ ∅)
          (if negb (exists_ self) then node_attribute_overrides self ∪ ∅ else ∅)
          ∅ (__keep_alive self)).
Proof.
  intros Hvalid Hconf. unfold clone.
  rewrite (proj2 (software_configuration_ok self) Hconf).
  unfold Node_init, placement_group_setter.
  simpl. rewrite (placement_group_valid_truthy _ Hvalid).
  unfold placement_group_valid in Hvalid.
  destruct (placement_group self) as [v|] eqn:Hpg; simpl.
  - rewrite Hvalid. simpl. by destruct (exists_ self).
  - by destruct (exists_ self).
Qed.

(** X11.  [clone] of a node whose placement group the setter accepts (as
    every group stored through the setter is) and whose attribute
    overrides hold no truthy [Configuration] returns a node that is not
    closed, not allocated and has no assignment, even when the original
    was closed or had some; it is required only if kept alive.  It has
    the original's resources, placement group, existence flag and
    metadata, and the original's attribute overrides unless the node
    exists, when it has none; its [available] has every binding of the
    original's, and for a key the original's no longer has, the binding
    of [resources].  With a truthy [Configuration] override, which in the
    modelled values is never a mapping, [clone] raises the error of
    [dict.update] instead, [TypeError] or [ValueError], whatever the
    placement group. *)
Theorem clone_is_fresh self :
  (placement_group_valid self →
   py_truthy (dict_get (node_attribute_overrides self) "Configuration") = false →
   ∃ ret, clone self = Ok ret
          ∧ closed ret = false
          ∧ _allocated ret = false
          ∧ assignments ret = ∅
          ∧ required ret = keep_alive self
          ∧ _resources ret = _resources self
          ∧ placement_group ret = placement_group self
          ∧ exists_ ret = exists_ self
          ∧ metadata ret = metadata self
          ∧ node_attribute_overrides ret
            = (if exists_ self then ∅ else node_attribute_overrides self)
          ∧ ∀ k, available ret !! k
                 = match available self !! k with
                   | Some v => Some v
                   | None => _resources self !! k
                   end)
  ∧ (py_truthy (dict_get (node_attribute_overrides self) "Configuration") = true →
     ∃ msg, clone self = Raise (TypeError msg) ∨ clone self = Raise (ValueError msg)).
Proof.
  split.
  - intros Hvalid Hconf. eexists. split; [by apply clone_valid|].
    repeat split.
    + unfold required. simpl. by rewrite !orb_false_r.
    + unfold metadata. simpl. by rewrite (right_id_L ∅ (∪)).
    + unfold node_attribute_overrides, exists_. simpl.
      destruct (__exists self); simpl; [done|]. by rewrite (right_id_L ∅ (∪)).
    + intros k. unfold available. simpl.
      destruct (__available self !! k) eqn:Hk.
      * by apply lookup_union_Some_l.
      * by apply lookup_union_r.
  - intros Hconf. unfold clone, software_configuration. unfold dict_get in Hconf.
    rewrite Hconf, andb_true_r.
    rewrite bool_decide_eq_false_2.
    + simpl. destruct (default VNone _) as [|b|z|s]; simpl; eauto.
    + intros Hemp. rewrite Hemp, lookup_empty in Hconf. done.
Qed.

Lemma clone_is_fresh_witness :
  ∃ ret, clone (with_closed true (assign "job-1" node_a)) = Ok ret
         ∧ closed ret = false
         ∧ _allocated ret = false
         ∧ assignments ret = ∅
         ∧ required ret = keep_alive (with_closed true (assign "job-1" node_a))
         ∧ _resources ret = _resources (with_closed true (assign "job-1" node_a))
         ∧ placement_group ret
           = placement_group (with_closed true (assign "job-1" node_a))
         ∧ exists_ ret = exists_ (with_closed true (assign "job-1" node_a))
         ∧ metadata ret = metadata (with_closed true (assign "job-1" node_a))
         ∧ node_attribute_overrides ret
           = (if exists_ (with_closed true (assign "job-1" node_a)) then ∅
              else node_attribute_overrides (with_closed true (assign "job-1" node_a)))
         ∧ ∀ k, available ret !! k
                = match available (with_closed true (assign "job-1" node_a)) !! k with
                  | Some v => Some v
                  | None => _resources (with_closed true (assign "job-1" node_a)) !! k
                  end.
Proof.
  apply (proj1 (clone_is_fresh (with_closed true (assign "job-1" node_a)))).
  - vm_compute. exact I.
  - vm_compute. reflexivity.
Defined.

(** A [Configuration] override that is not a mapping makes [clone]
    raise. *)
Example clone_configuration_error :
  clone (with_node_attribute_overrides {["Configuration" := VInt 1]} node_a)
  = Raise (TypeError "object is not iterable")
  ∧ clone (with_node_attribute_overrides {["Configuration" := VInt 0]} node_a)
    = Ok (with_node_attribute_overrides {["Configuration" := VInt 0]} node_a).
Proof. split; vm_compute; reflexivity. Qed.

(** X12.  Cloning a clone gives the same node again: when [clone]
    returns, the read of the software configuration and the validation
    of the placement group succeed on the clone as they did on the
    original. *)
Theorem clone_idempotent self ret :
  clone self = Ok ret → clone ret = Ok ret.
Proof.
  intros Hclone. unfold clone in Hclone.
  destruct (software_configuration self) as [[]|e] eqn:Hconf; [|done].
  apply software_configuration_ok in Hconf.
  unfold Node_init in Hclone.
  destruct (placement_group_setter _ _) as [n0|e] eqn:Hset; [|done].
  pose proof (placement_group_setter_valid _ _ _ Hset) as Hvalid.
  apply placement_group_setter_frame in Hset.
  assert (placement_group ret = placement_group n0) as Hpg.
  { simplify_eq. by destruct (negb (exists_ self)). }
  assert (placement_group_valid ret) as Hret.
  { unfold placement_group_valid. by rewrite Hpg. }
  assert (py_truthy (dict_get (node_attribute_overrides ret) "Configuration") = false)
    as Hconf'.
  { rewrite Hset in Hclone. injection Hclone as <-.
    unfold node_attribute_overrides, exists_ in *.
    destruct (__exists self);
      cbn [negb with_placement_group with_available with_metadata
           with_node_attribute_overrides __node_attribute_overrides].
    - done.
    - by rewrite (right_id_L ∅ (∪)). }
  rewrite (clone_valid _ Hret Hconf'). f_equal.
  rewrite Hset in Hclone. clear Hset Hret Hpg Hvalid Hconf Hconf'.
  injection Hclone as <-.
  apply Node_ext;
    unfold node_attribute_overrides, available, metadata, exists_, placement_group;
    destruct (__exists self);
    cbn [negb with_placement_group with_available with_metadata
         with_node_attribute_overrides _resources __available __exists
         __placement_group _allocated __closed __metadata
         __node_attribute_overrides __assignments __keep_alive];
    try reflexivity;
    by rewrite <- !(assoc_L (∪)), !(idemp_L (∪)).
Qed.

Lemma clone_idempotent_witness :
  clone (mkNode {["slots" := VInt 4]} {["slots" := VInt 1; "extra" := VInt 2]}
           false (Some "pg1") false false {["owner" := VStr "me"]}
           {["Region" := VStr "west"]} ∅ false)
  = Ok (mkNode {["slots" := VInt 4]} {["slots" := VInt 1; "extra" := VInt 2]}
           false (Some "pg1") false false {["owner" := VStr "me"]}
           {["Region" := VStr "west"]} ∅ false).
Proof.
  apply (clone_idempotent
           (mkNode {["slots" := VInt 4]} {["slots" := VInt 1; "extra" := VInt 2]}
              false (Some "pg1") true true {["owner" := VStr "me"]}
              {["Region" := VStr "west"]} {["job-1"]} false)).
  vm_compute. reflexivity.
Defined.

(** ** The placement group: escaping, acceptance, write-once *)

(** The five characters between [Z] and [a], the underscore apart, are the
    ones the escaping leaves alone and the setter refuses. *)
Lemma slips_through_spec c :
  slips_through c = true ↔ In c ["["; "\"; "]"; "^"; "`"]%char.
Proof.
  destruct c as [[] [] [] [] [] [] [] []]; vm_compute;
    split; intros H; try discriminate; try done;
    repeat (destruct H as [H|H]; [discriminate H|]); try done; tauto.
Qed.

Lemma pg_class_escaped c :
  pg_class (if escape_class c then c else "_"%char) = negb (slips_through c).
Proof.
  unfold slips_through. destruct (escape_class c); simpl; [|done].
  by rewrite negb_involutive.
Qed.

Lemma re_sub_escape_all_class v :
  all_class (re_sub_escape v) = true ↔
  Forall (λ c, slips_through c = false) (list_ascii_of_string v).
Proof.
  induction v as [|c r IH]; simpl; [by split; [constructor|]|].
  rewrite pg_class_escaped, andb_true_iff, negb_true_iff, Forall_cons, IH. done.
Qed.

Lemma re_sub_escape_keeps c v :
  In c (list_ascii_of_string v) → escape_class c = true →
  In c (list_ascii_of_string (re_sub_escape v)).
Proof.
  intros Hin Hc. induction v as [|a r IH]; simpl in *; [done|].
  destruct Hin as [->|Hin]; [left; by rewrite Hc | right; by apply IH].
Qed.

Lemma re_sub_escape_truthy v : str_truthy (re_sub_escape v) = str_truthy v.
Proof. by destruct v. Qed.

(** X13.  On a node whose placement group may still change (it has none,
    or the node does not exist yet), [set_placement_group_escaped] of a
    non-empty value stores the value with every character outside
    [[a-zA-z0-9-_]] replaced by an underscore and returns it, provided
    the value has none of the characters [[], [\], []], [^] and the
    backquote; if it has one, the call raises the setter's "invalid"
    error and leaves the node as it was. *)
Theorem set_placement_group_escaped_spec v n :
  opt_truthy (placement_group n) = false ∨ exists_ n = false →
  v ≠ EmptyString →
  (Forall (λ c, ¬ In c ["["; "\"; "]"; "^"; "`"]%char) (list_ascii_of_string v) →
   set_placement_group_escaped (Some v) n
   = (Ok (Some (re_sub_escape v)), with_placement_group (Some (re_sub_escape v)) n)
   ∧ all_class (re_sub_escape v) = true)
  ∧ (Exists (λ c, In c ["["; "\"; "]"; "^"; "`"]%char) (list_ascii_of_string v) →
     set_placement_group_escaped (Some v) n
     = (Raise (RuntimeError
          "Invalid placement_group - must only contain letters, numbers, '-' or '_'"),
        n)).
Proof.
  intros Hfree Hne.
  assert (str_truthy v = true) as Hv by by destruct v.
  assert (opt_truthy (__placement_group n)
          && negb (bool_decide (Some (re_sub_escape v) = __placement_group n))
          && exists_ n = false) as Hguard.
  { unfold placement_group in Hfree.
    destruct Hfree as [-> | ->]; [done | apply andb_false_r]. }
  unfold set_placement_group_escaped, placement_group_setter. simpl.
  rewrite Hv. simpl. rewrite re_sub_escape_truthy, Hv, Hguard.
  split.
  - intros Hall.
    assert (all_class (re_sub_escape v) = true) as Hclass.
    { apply re_sub_escape_all_class. eapply Forall_impl; [exact Hall|].
      intros c Hc. simpl in Hc. apply not_true_is_false.
      by intros ?%slips_through_spec. }
    rewrite re_match_placement_group_all_class; [done| |done].
    by destruct v.
  - intros (c & Hin & Hc)%Exists_exists.
    apply slips_through_spec in Hc. unfold slips_through in Hc.
    apply andb_true_iff in Hc as [Hesc Hpg%negb_true_iff].
    rewrite (re_match_placement_group_rejects (re_sub_escape v) c); [done| |done|].
    + apply re_sub_escape_keeps; [|done]. by apply list_elem_of_In.
    + intros ->. done.
Qed.

Lemma set_placement_group_escaped_spec_witness :
  (Forall (λ c, ¬ In c ["["; "\"; "]"; "^"; "`"]%char)
          (list_ascii_of_string "my group!") →
   set_placement_group_escaped (Some "my group!") node_a
   = (Ok (Some (re_sub_escape "my group!")),
      with_placement_group (Some (re_sub_escape "my group!")) node_a)
   ∧ all_class (re_sub_escape "my group!") = true)
  ∧ (Exists (λ c, In c ["["; "\"; "]"; "^"; "`"]%char)
            (list_ascii_of_string "my group!") →
     set_placement_group_escaped (Some "my group!") node_a
     = (Raise (RuntimeError
          "Invalid placement_group - must only contain letters, numbers, '-' or '_'"),
        node_a)).
Proof.
  apply set_placement_group_escaped_spec; [left; reflexivity | discriminate].
Defined.

(** X14.  While the placement group may still change (the node has none,
    or does not exist yet), the setter accepts exactly [None], the empty
    string, and a non-empty run of letters, digits, [-] and [_] possibly
    followed by one line feed; what it accepts it stores, [None] for the
    empty string, and changes nothing else. *)
Theorem placement_group_setter_accepts value n :
  opt_truthy (placement_group n) = false ∨ exists_ n = false →
  (is_ok (placement_group_setter value n) = true ↔
   opt_truthy value = false
   ∨ ∃ body, body ≠ EmptyString ∧ all_class body = true
             ∧ (value = Some body ∨ value = Some (body ++ String LF EmptyString)))
  ∧ ∀ n', placement_group_setter value n = Ok n' →
          n' = with_placement_group (if opt_truthy value then value else None) n.
Proof.
  intros Hfree.
  assert (∀ x, opt_truthy (__placement_group n)
               && negb (bool_decide (x = __placement_group n))
               && exists_ n = false) as Hguard.
  { intros x. unfold placement_group in Hfree.
    destruct Hfree as [-> | ->]; [done | apply andb_false_r]. }
  unfold placement_group_setter. rewrite Hguard.
  destruct value as [v|]; simpl.
  - destruct (str_truthy v) eqn:Hv.
    + destruct (re_match_placement_group v) eqn:Hm; simpl.
      * split; [|by intros n' [= <-]]. split; [|done]. intros _. right.
        apply re_match_placement_group_spec in Hm as (body & ? & ? & [->| ->]);
          eauto 6.
      * split; [|done]. split; [done|].
        intros [?|(body & Hne & Hbody & Hval)]; [done|].
        assert (re_match_placement_group v = true); [|congruence].
        apply re_match_placement_group_spec. exists body.
        destruct Hval as [[= ->]|[= ->]]; auto.
    + split; [|by intros n' [= <-]]. split; auto.
  - split; [|by intros n' [= <-]]. split; auto.
Qed.

Lemma placement_group_setter_accepts_witness :
  (is_ok (placement_group_setter (Some "pg-1") (exists_setter true node_a)) = true ↔
   opt_truthy (Some "pg-1") = false
   ∨ ∃ body, body ≠ EmptyString ∧ all_class body = true
             ∧ (Some "pg-1" = Some body
                ∨ Some "pg-1" = Some (body ++ String LF EmptyString)))
  ∧ ∀ n', placement_group_setter (Some "pg-1") (exists_setter true node_a) = Ok n' →
          n' = with_placement_group
                 (if opt_truthy (Some "pg-1") then Some "pg-1" else None)
                 (exists_setter true node_a).
Proof.
  apply placement_group_setter_accepts. left. reflexivity.
Defined.

Lemma try_set_placement_group_exists n value :
  exists_ (try_set_placement_group n value) = exists_ n.
Proof.
  unfold try_set_placement_group.
  destruct (placement_group_setter value n) as [n'|] eqn:Hset; [|done].
  apply placement_group_setter_frame in Hset. by rewrite Hset.
Qed.

Lemma try_set_placement_group_existing n value :
  exists_ n = true → opt_truthy (placement_group n) = true →
  placement_group (try_set_placement_group n value) = placement_group n.
Proof.
  intros Hex Hset. unfold try_set_placement_group, placement_group_setter.
  unfold placement_group in *. rewrite Hset, Hex. simpl. rewrite andb_true_r.
  destruct (decide ((if opt_truthy value then value else None) = __placement_group n))
    as [Heq|Hne].
  - rewrite bool_decide_eq_true_2 by done. simpl. rewrite Heq.
    destruct (__placement_group n) as [v|] eqn:Hpg; [|done].
    by destruct (negb (re_match_placement_group v)).
  - by rewrite bool_decide_eq_false_2.
Qed.

(** X15.  Write-once while existing: on an existing node that has a
    placement group, whatever assignments to [placement_group] are
    attempted, the group stays what it was, and every attempt to set a
    different value (or to clear it) raises. *)
Theorem placement_group_write_once n values :
  exists_ n = true →
  opt_truthy (placement_group n) = true →
  placement_group (foldl try_set_placement_group n values) = placement_group n
  ∧ ∀ value,
      (if opt_truthy value then value else None) ≠ placement_group n →
      placement_group_setter value (foldl try_set_placement_group n values)
      = Raise (RuntimeError "Can not change the placement group of an existing node").
Proof.
  intros Hex Hset.
  assert (placement_group (foldl try_set_placement_group n values) = placement_group n
          ∧ exists_ (foldl try_set_placement_group n values) = true) as [Hpg Hex'].
  { revert n Hex Hset. induction values as [|v values IH]; intros n Hex Hset; [done|].
    simpl.
    pose proof (try_set_placement_group_existing n v Hex Hset) as Hsame.
    destruct (IH (try_set_placement_group n v)) as [H1 H2].
    - by rewrite try_set_placement_group_exists.
    - by rewrite Hsame.
    - by rewrite H1, H2. }
  split; [done|]. intros value Hne.
  apply placement_group_setter_change_existing; by rewrite ?Hpg.
Qed.

Lemma placement_group_write_once_witness :
  placement_group
    (foldl try_set_placement_group
       (exists_setter true (with_placement_group (Some "pg1") node_a))
       [Some "pg2"; None; Some "pg1"; Some ""])
  = placement_group (exists_setter true (with_placement_group (Some "pg1") node_a))
  ∧ ∀ value,
      (if opt_truthy value then value else None)
      ≠ placement_group (exists_setter true (with_placement_group (Some "pg1") node_a)) →
      placement_group_setter value
        (foldl try_set_placement_group
           (exists_setter true (with_placement_group (Some "pg1") node_a))
           [Some "pg2"; None; Some "pg1"; Some ""])
      = Raise (RuntimeError "Can not change the placement group of an existing node").
Proof.
  apply placement_group_write_once; reflexivity.
Defined.

(** X16.  A node built by [Node.__init__] and changed only through the
    [placement_group] setter never holds the empty string or a character
    outside the class, a final line feed apart: its placement group is
    [None] or a non-empty run of letters, digits, [-] and [_], possibly
    followed by one line feed. *)
Theorem placement_group_always_valid resources exists' pg keep_alive' n values :
  Node_init resources exists' pg keep_alive' = Ok n →
  match placement_group (foldl try_set_placement_group n values) with
  | None => True
  | Some v => ∃ body, body ≠ EmptyString ∧ all_class body = true
                      ∧ (v = body ∨ v = body ++ String LF EmptyString)
  end.
Proof.
  intros Hinit. apply placement_group_setter_valid in Hinit.
  assert (placement_group_valid (foldl try_set_placement_group n values)) as Hv.
  { revert n Hinit. induction values as [|v values IH]; intros n Hn; [done|].
    simpl. apply IH. unfold try_set_placement_group.
    destruct (placement_group_setter v n) eqn:Hset; [|done].
    by apply placement_group_setter_valid in Hset. }
  unfold placement_group_valid in Hv.
  destruct (placement_group _) as [v|]; [|done].
  by apply re_match_placement_group_spec.
Qed.

Lemma placement_group_always_valid_witness :
  match placement_group
          (foldl try_set_placement_group
             (mkNode ∅ ∅ false (Some "pg1") false false ∅ ∅ ∅ false)
             [Some "bad group"; Some "pg-2"; Some pg_newline]) with
  | None => True
  | Some v => ∃ body, body ≠ EmptyString ∧ all_class body = true
                      ∧ (v = body ∨ v = body ++ String LF EmptyString)
  end.
Proof.
  apply (placement_group_always_valid ∅ false (Some "pg1") false). reflexivity.
Defined.

(** ** [DemandPrinter]: column expressions *)

(** Unfolding string concatenation on constructors. *)
Ltac string_app :=
  repeat first
    [ progress change (String.append EmptyString ?s) with s in *
    | progress change (String.append (String ?a ?s1) ?s2)
        with (String a (String.append s1 s2)) in * ].

(** X17.  Splitting a column expression at its first colon loses nothing:
    the parts are found exactly when the expression is the column, a
    colon and the default, with no colon in the column; and there are no
    parts exactly when the expression has no colon. *)
Theorem split_colon_spec expr :
  (∀ column default_value,
     split_colon expr = Some (column, default_value) ↔
     expr = column ++ String ":" default_value
     ∧ ¬ In ":"%char (list_ascii_of_string column))
  ∧ (split_colon expr = None ↔ ¬ In ":"%char (list_ascii_of_string expr)).
Proof.
  induction expr as [|c r [IH1 IH2]]; simpl.
  - split; [|tauto]. intros column d. split; [done|].
    intros [Heq _]. by destruct column.
  - destruct (Ascii.eqb_spec c ":") as [->|Hc].
    + split; [|split; [done | tauto]].
      intros column d. split.
      * intros [= <- <-]. simpl. tauto.
      * intros [Heq Hnot]. destruct column as [|a column]; simpl in *; string_app.
        -- by simplify_eq.
        -- simplify_eq. tauto.
    + split.
      * intros column d. split.
        -- destruct (split_colon r) as [[col' d']|] eqn:Hr; [|done].
           intros [= <- <-]. destruct (proj1 (IH1 col' d') eq_refl) as [-> Hnot].
           simpl. string_app.
           split; [done|]. intros [?|?]; [congruence | tauto].
        -- intros [Heq Hnot]. destruct column as [|a column]; simpl in *; string_app.
           ++ simplify_eq.
           ++ simplify_eq.
              assert (split_colon (column ++ String ":" d) = Some (column, d)) as ->;
                [|done].
              apply IH1. tauto.
      * destruct (split_colon r) as [[col' d']|] eqn:Hr.
        -- split; [done|]. intros Hnot.
           assert (Some (col', d') = None) as Hn by (apply IH2; tauto). done.
        -- split; [|done]. intros _ [?|?]; [congruence|]. by apply IH2.
Qed.
(** The column an expression names. *)
Lemma strip_defaults_columns exprs : ∀ d,
  (strip_defaults exprs d).1
  = map (λ expr, match split_colon expr with
                 | Some (column, _) => column
                 | None => expr
                 end) exprs.
Proof.
  induction exprs as [|e r IH]; intros d; simpl; [done|].
  destruct (split_colon e) as [[c v]|].
  - specialize (IH (<[c:=v]> d)). destruct (strip_defaults r _). simpl in *.
    by rewrite IH.
  - specialize (IH d). destruct (strip_defaults r d). simpl in *. by rewrite IH.
Qed.

Lemma strip_defaults_lookup exprs : ∀ d k v,
  (strip_defaults exprs d).2 !! k = Some v ↔
  (∃ l1 e l2, exprs = (l1 ++ e :: l2)%list
              ∧ split_colon e = Some (k, v)
              ∧ ∀ e' v', e' ∈ l2 → split_colon e' ≠ Some (k, v'))
  ∨ (d !! k = Some v ∧ ∀ e' v', e' ∈ exprs → split_colon e' ≠ Some (k, v')).
Proof.
  induction exprs as [|e r IH]; intros d k v.
  - simpl. split.
    + intros Hd. right. split; [done|]. by intros e' v' ?%elem_of_nil.
    + intros [(l1 & e & l2 & Heq & _)|[Hd _]]; [by destruct l1 | done].
  - assert ((strip_defaults (e :: r) d).2
            = (strip_defaults r (match split_colon e with
                                 | Some (c, w) => <[c:=w]> d
                                 | None => d
                                 end)).2) as ->.
    { simpl. destruct (split_colon e) as [[c w]|];
        by destruct (strip_defaults r _). }
    rewrite IH. clear IH. split.
    + intros [(l1 & e0 & l2 & -> & Hs & Hlater)|[Hd Hnone]].
      * left. exists (e :: l1), e0, l2. done.
      * destruct (split_colon e) as [[c w]|] eqn:He.
        -- destruct (decide (c = k)) as [->|Hck].
           ++ rewrite lookup_insert_eq in Hd. simplify_eq.
              left. exists [], e, r. done.
           ++ rewrite lookup_insert_ne in Hd by done.
              right. split; [done|].
              intros e' v' [->|Hin]%elem_of_cons; [congruence | by apply Hnone].
        -- right. split; [done|].
           intros e' v' [->|Hin]%elem_of_cons; [congruence | by apply Hnone].
    + intros [(l1 & e0 & l2 & Heq & Hs & Hlater)|[Hd Hnone]].
      * destruct l1 as [|e1 l1]; simpl in Heq; simplify_eq.
        -- right. rewrite Hs, lookup_insert_eq. done.
        -- left. exists l1, e0, l2. done.
      * right. split.
        -- destruct (split_colon e) as [[c w]|] eqn:He; [|done].
           rewrite lookup_insert_ne; [done|]. intros ->.
           by apply (Hnone e w); [apply list_elem_of_here|].
        -- intros e' v' Hin. by apply Hnone, list_elem_of_further.
Qed.

(** X18.  [DemandPrinter.__init__] keeps one column name per expression:
    the text before the first colon (the whole expression when it has
    none), lower-cased in [column_names] and as written in the caller's
    list, which is rewritten in place.  A default is stored under the
    column as written, not lower-cased, and when several expressions name
    the same column the last one's default is kept.  Without a list, or
    with an empty one, the printer has no column and no default. *)
Theorem DemandPrinter_init_spec exprs json' :
  (DemandPrinter_init (Some exprs) json').2
  = map (λ expr, match split_colon expr with
                 | Some (column, _) => column
                 | None => expr
                 end) exprs
  ∧ column_names (DemandPrinter_init (Some exprs) json').1
    = map lower (DemandPrinter_init (Some exprs) json').2
  ∧ List.length (column_names (DemandPrinter_init (Some exprs) json').1)
    = List.length exprs
  ∧ (∀ k v,
       __defaults (DemandPrinter_init (Some exprs) json').1 !! k = Some v ↔
       ∃ l1 e l2, exprs = (l1 ++ e :: l2)%list
                  ∧ split_colon e = Some (k, v)
                  ∧ ∀ e' v', e' ∈ l2 → split_colon e' ≠ Some (k, v'))
  ∧ DemandPrinter_init None json' = (mkDemandPrinter [] ∅ json', [])
  ∧ DemandPrinter_init (Some []) json' = (mkDemandPrinter [] ∅ json', []).
Proof.
  unfold DemandPrinter_init. simpl.
  pose proof (strip_defaults_columns exprs ∅) as Hcols.
  pose proof (strip_defaults_lookup exprs ∅) as Hlook.
  destruct (strip_defaults exprs ∅) as [cols d]. simpl in *. subst cols.
  repeat split; try done.
  - by rewrite !length_map.
  - intros Hd. apply Hlook in Hd as [?|[Hd _]]; [done|].
    by rewrite lookup_empty in Hd.
  - intros H. apply Hlook. by left.
Qed.

(** The default of a column written with a capital is stored under the
    name as written, where a lookup by the lower-cased column name does
    not find it. *)
Example DemandPrinter_init_case :
  column_names (DemandPrinter_init (Some ["Name"; "Mem:1:2"; "slots:0"; "slots:7"]) false).1
  = ["name"; "mem"; "slots"; "slots"]
  ∧ __defaults (DemandPrinter_init (Some ["Name"; "Mem:1:2"; "slots:0"; "slots:7"]) false).1
    = {["Mem" := "1:2"; "slots" := "7"]}.
Proof. split; reflexivity. Qed.

(** ** [DemandPrinter._calc_width] *)

(** One row either fits ([n + len(row) <= len(maxes)]) and raises every
    width it covers to the length of its cell, or does not fit. *)
Lemma calc_width_row_Some row : ∀ n maxes,
  (n + List.length row ≤ List.length maxes)%nat →
  ∃ maxes',
    calc_width_row n row maxes = Some maxes'
    ∧ List.length maxes' = List.length maxes
    ∧ ∀ i, maxes' !! i
           = (λ m, if decide (n ≤ i)%nat
                   then match row !! (i - n)%nat with
                        | Some cell => Nat.max (len cell) m
                        | None => m
                        end
                   else m) <$> maxes !! i.
Proof.
  induction row as [|cell rest IH]; intros n maxes Hfit; simpl in *.
  - exists maxes. repeat split. intros i.
    destruct (maxes !! i); simpl; [|done]. by destruct (decide _).
  - destruct (lookup_lt_is_Some_2 maxes n) as [m Hm]; [lia|]. rewrite Hm.
    destruct (IH (S n) (<[n := Nat.max (len cell) m]> maxes)) as (maxes' & -> & Hlen & Hi).
    { rewrite length_insert. lia. }
    exists maxes'. rewrite length_insert in Hlen. repeat split; [done|].
    intros i. rewrite Hi. destruct (decide (i = n)) as [->|Hne].
    + rewrite list_lookup_insert_eq by (by apply lookup_lt_Some in Hm).
      rewrite Hm. simpl. rewrite decide_False by lia. rewrite decide_True by lia.
      by rewrite Nat.sub_diag.
    + rewrite list_lookup_insert_ne by done.
      destruct (maxes !! i) as [mi|]; simpl; [|done]. f_equal.
      destruct (decide (S n ≤ i)%nat).
      * rewrite decide_True by lia.
        by replace (i - n)%nat with (S (i - S n)) by lia.
      * by rewrite decide_False by lia.
Qed.

Lemma calc_width_row_None rest : ∀ cell n maxes,
  (List.length maxes < n + S (List.length rest))%nat →
  calc_width_row n (cell :: rest) maxes = None.
Proof.
  induction rest as [|cell' rest IH]; intros cell n maxes Hfit; simpl in *.
  - rewrite lookup_ge_None_2; [done | lia].
  - destruct (maxes !! n) as [m|] eqn:Hm; [|done].
    apply lookup_lt_Some in Hm.
    apply (IH cell' (S n)). rewrite length_insert. lia.
Qed.

(** A row is accepted exactly when it has no more cells than there are
    widths. *)
Lemma calc_width_row_fits row maxes :
  is_Some (calc_width_row 0 row maxes) ↔ (List.length row ≤ List.length maxes)%nat.
Proof.
  split.
  - intros [maxes' Hrow].
    destruct (decide (List.length row ≤ List.length maxes)%nat) as [|Hgt]; [done|].
    destruct row as [|cell rest]; [simpl; lia|].
    rewrite calc_width_row_None in Hrow; [done | simpl in Hgt; lia].
  - intros Hfit. destruct (calc_width_row_Some row 0 maxes) as (maxes' & -> & _);
      [lia | done].
Qed.

Lemma calc_width_rows_spec rows : ∀ maxes widths,
  calc_width_rows rows maxes = Some widths →
  List.length widths = List.length maxes
  ∧ ∀ i w, widths !! i = Some w →
      ∃ m, maxes !! i = Some m
           ∧ (m ≤ w)%nat
           ∧ (∀ row cell, row ∈ rows → row !! i = Some cell → (len cell ≤ w)%nat)
           ∧ (w = m ∨ ∃ row cell, row ∈ rows ∧ row !! i = Some cell ∧ w = len cell).
Proof.
  induction rows as [|row rows IH]; intros maxes widths; simpl.
  - intros [= <-]. split; [done|]. intros i w Hw. exists w.
    repeat split; [done|lia| |by left]. by intros row cell ?%elem_of_nil.
  - destruct (calc_width_row 0 row maxes) as [maxes1|] eqn:Hrow; [|done].
    intros Hrows.
    assert (List.length row ≤ List.length maxes)%nat as Hfit
      by (apply calc_width_row_fits; rewrite Hrow; eauto).
    destruct (calc_width_row_Some row 0 maxes) as (maxes1' & Hrow' & Hlen & Hi); [lia|].
    rewrite Hrow in Hrow'. injection Hrow' as <-.
    destruct (IH _ _ Hrows) as [Hlen' Hw]. split; [congruence|].
    intros i w Hiw. destruct (Hw i w Hiw) as (m1 & Hm1 & Hle & Hcells & Hatt).
    rewrite Hi in Hm1. destruct (maxes !! i) as [m|] eqn:Hm; [|done].
    cbv [fmap option_fmap option_map] in Hm1. cbv beta in Hm1.
    rewrite decide_True in Hm1 by lia.
    rewrite Nat.sub_0_r in Hm1. injection Hm1 as Hm1.
    exists m. split; [done|].
    destruct (row !! i) as [cell|] eqn:Hcell.
    + split; [lia|]. split.
      * intros row' cell' [->|Hin]%elem_of_cons Hc'; [|by eapply Hcells].
        rewrite Hcell in Hc'. injection Hc' as <-. lia.
      * destruct Hatt as [->|(row' & cell' & Hin & Hc' & ->)].
        -- destruct (Nat.max_spec (len cell) m) as [[_ Hmax]|[_ Hmax]];
             [left; lia|].
           right. exists row, cell. split; [apply list_elem_of_here|]. split; [done|].
           lia.
        -- right. exists row', cell'. split; [by apply list_elem_of_further | done].
    + subst m1. split; [done|]. split.
      * intros row' cell' [->|Hin]%elem_of_cons Hc'; [congruence | by eapply Hcells].
      * destruct Hatt as [->|(row' & cell' & Hin & Hc' & ->)]; [by left|].
        right. exists row', cell'. split; [by apply list_elem_of_further | done].
Qed.

Lemma calc_width_rows_fits rows : ∀ maxes,
  is_Some (calc_width_rows rows maxes) ↔
  Forall (λ row, (List.length row ≤ List.length maxes)%nat) rows.
Proof.
  induction rows as [|row rows IH]; intros maxes; simpl.
  - split; [constructor | eauto].
  - rewrite Forall_cons. split.
    + destruct (calc_width_row 0 row maxes) as [maxes1|] eqn:Hrow;
        [|by intros [? ?]].
      intros Hsome.
      assert (List.length row ≤ List.length maxes)%nat as Hfit
        by (apply calc_width_row_fits; rewrite Hrow; eauto).
      split; [done|].
      destruct (calc_width_row_Some row 0 maxes) as (maxes1' & Hrow' & Hlen & _); [lia|].
      rewrite Hrow in Hrow'. injection Hrow' as <-.
      apply IH in Hsome. by rewrite Hlen in Hsome.
    + intros [Hfit Hall].
      destruct (calc_width_row_Some row 0 maxes) as (maxes1 & -> & Hlen & _); [lia|].
      apply IH. by rewrite Hlen.
Qed.

(** X19.  [_calc_width] returns exactly when no row has more cells than
    there are columns; a longer row makes it raise [IndexError]. *)
Theorem _calc_width_fits columns rows :
  is_Some (_calc_width columns rows) ↔
  Forall (λ row, (List.length row ≤ List.length columns)%nat) rows.
Proof.
  unfold _calc_width. rewrite calc_width_rows_fits. by rewrite length_map.
Qed.

(** X20.  The widths [_calc_width] returns, one per column, are the
    maxima of the lengths in each column: a width is at least the length
    of the column's name and of every cell of that column, and it is the
    length of one of them. *)
Theorem _calc_width_max columns rows widths :
  _calc_width columns rows = Some widths →
  List.length widths = List.length columns
  ∧ ∀ i w, widths !! i = Some w →
      ∃ c, columns !! i = Some c
           ∧ (len c ≤ w)%nat
           ∧ (∀ row cell, row ∈ rows → row !! i = Some cell → (len cell ≤ w)%nat)
           ∧ (w = len c ∨ ∃ row cell, row ∈ rows ∧ row !! i = Some cell ∧ w = len cell).
Proof.
  unfold _calc_width. intros Hw.
  destruct (calc_width_rows_spec _ _ _ Hw) as [Hlen Hi].
  rewrite length_map in Hlen. split; [done|].
  intros i w Hiw. destruct (Hi i w Hiw) as (m & Hm & Hrest).
  apply list_lookup_fmap_Some in Hm as (c & -> & Hc).
  exists c. split; [done | exact Hrest].
Qed.

Lemma _calc_width_max_witness :
  List.length [7; 5]%nat = List.length ["name"; "x"]
  ∧ ∀ i w, [7; 5]%nat !! i = Some w →
      ∃ c, ["name"; "x"] !! i = Some c
           ∧ (len c ≤ w)%nat
           ∧ (∀ row cell, row ∈ [["a"; "hello"]; ["abcdefg"]; []] →
                          row !! i = Some cell → (len cell ≤ w)%nat)
           ∧ (w = len c
              ∨ ∃ row cell, row ∈ [["a"; "hello"]; ["abcdefg"]; []]
                            ∧ row !! i = Some cell ∧ w = len cell).
Proof.
  apply (_calc_width_max ["name"; "x"] [["a"; "hello"]; ["abcdefg"]; []]).
  reflexivity.
Defined.

(** ** The columns of [print_demand] *)

Lemma remove_first_perm x l : x ∈ l → x :: remove_first x l ≡ₚ l.
Proof.
  induction l as [|y l IH]; simpl; [by intros ?%elem_of_nil|].
  destruct (String.eqb_spec y x) as [->|Hne]; [done|].
  intros [->|Hin]%elem_of_cons; [done|].
  rewrite Permutation_swap. by rewrite IH.
Qed.

Lemma demand_columns_name columns :
  "name" ∈ map (λ c, if String.eqb c "assigned_job_ids" then "job_ids" else c)
               (filter (λ c, c ∉ ["available"; "node"]) columns)
  ↔ "name" ∈ columns.
Proof.
  rewrite list_elem_of_In, in_map_iff. split.
  - intros (c & Hc & Hin). apply list_elem_of_In, list_elem_of_filter in Hin as [_ Hin].
    destruct (String.eqb_spec c "assigned_job_ids"); [done | by subst].
  - intros Hin. exists "name". split; [done|].
    apply list_elem_of_In, list_elem_of_filter. split; [|done].
    intros [?|[?|?%elem_of_nil]%elem_of_cons]%elem_of_cons; done.
Qed.

(** X21.  The columns [print_demand] works with never include
    [available], [node] or [assigned_job_ids]; they are the given columns
    without [available] and [node] and with [assigned_job_ids] renamed to
    [job_ids], in the given order when [name] is not among them, and
    otherwise with the first [name] moved to the front; computing them
    from their own result changes nothing. *)
Theorem demand_columns_spec columns :
  (∀ c, c ∈ demand_columns columns →
        c ≠ "available" ∧ c ≠ "node" ∧ c ≠ "assigned_job_ids")
  ∧ demand_columns columns
    ≡ₚ map (λ c, if String.eqb c "assigned_job_ids" then "job_ids" else c)
           (filter (λ c, c ∉ ["available"; "node"]) columns)
  ∧ ("name" ∈ columns → head (demand_columns columns) = Some "name")
  ∧ ("name" ∉ columns →
     demand_columns columns
     = map (λ c, if String.eqb c "assigned_job_ids" then "job_ids" else c)
           (filter (λ c, c ∉ ["available"; "node"]) columns))
  ∧ demand_columns (demand_columns columns) = demand_columns columns.
Proof.
  set (renamed := map (λ c, if String.eqb c "assigned_job_ids" then "job_ids" else c)
                      (filter (λ c, c ∉ ["available"; "node"]) columns)).
  assert (demand_columns columns ≡ₚ renamed) as Hperm.
  { unfold demand_columns. fold renamed. case_bool_decide; [|done].
    by apply remove_first_perm. }
  assert (∀ c, c ∈ renamed →
               c ≠ "available" ∧ c ≠ "node" ∧ c ≠ "assigned_job_ids") as Hren.
  { intros c. unfold renamed. rewrite list_elem_of_In, in_map_iff.
    intros (c0 & <- & Hin). apply list_elem_of_In, list_elem_of_filter in Hin as [Hk _].
    destruct (String.eqb_spec c0 "assigned_job_ids"); [done|].
    repeat split; [| |done]; intros ->; apply Hk;
      [apply list_elem_of_here | apply list_elem_of_further, list_elem_of_here]. }
  assert (∀ c, c ∈ demand_columns columns →
               c ≠ "available" ∧ c ≠ "node" ∧ c ≠ "assigned_job_ids") as Hres.
  { intros c Hc. apply Hren. by rewrite <- Hperm. }
  split; [done|]. split; [done|]. split; [|split].
  - intros Hin. unfold demand_columns. fold renamed.
    rewrite bool_decide_eq_true_2; [done|]. by apply demand_columns_name.
  - intros Hnot. unfold demand_columns. fold renamed.
    rewrite bool_decide_eq_false_2; [done|].
    intros Hin. by apply Hnot, demand_columns_name.
  - assert (∀ l, (∀ c, c ∈ l → c ≠ "available" ∧ c ≠ "node" ∧ c ≠ "assigned_job_ids") →
                 map (λ c, if String.eqb c "assigned_job_ids" then "job_ids" else c)
                     (filter (λ c, c ∉ ["available"; "node"]) l) = l) as Hid.
    { induction l as [|c l IH]; intros Hl; [done|].
      destruct (Hl c (list_elem_of_here _ _)) as (Ha & Hn & Hj).
      rewrite filter_cons_True.
      - simpl. destruct (String.eqb_spec c "assigned_job_ids"); [done|].
        f_equal. apply IH. intros c' Hc'. by apply Hl, list_elem_of_further.
      - intros [?|[?|?%elem_of_nil]%elem_of_cons]%elem_of_cons; done. }
    unfold demand_columns at 1. rewrite (Hid _ Hres).
    case_bool_decide as Hname; [|done].
    assert ("name" ∈ renamed) as Hin by by rewrite <- Hperm.
    unfold demand_columns. fold renamed.
    rewrite bool_decide_eq_true_2 by done. simpl. done.
Qed.

(** ** Escaping twice *)

(** X22.  [set_placement_group_escaped] can be repeated: when a call
    succeeds, the same call on the node it leaves, existing or not,
    succeeds again, returns the same value and changes nothing. *)
Theorem set_placement_group_escaped_repeat value n r n' :
  set_placement_group_escaped value n = (Ok r, n') →
  set_placement_group_escaped value n' = (Ok r, n').
Proof.
  unfold set_placement_group_escaped.
  set (value' := if opt_truthy value then re_sub_escape <$> value else value).
  destruct (placement_group_setter value' n) as [n1|e] eqn:Hset; [|done].
  intros [= <- <-].
  pose proof (placement_group_setter_valid _ _ _ Hset) as Hvalid.
  pose proof (placement_group_setter_frame _ _ _ Hset) as Hframe.
  assert ((if opt_truthy value' then value' else None) = placement_group n1) as Hpg.
  { unfold placement_group_setter in Hset.
    destruct (_ && _ && _); [done|].
    destruct (if opt_truthy value' then value' else None) as [v|].
    - destruct (negb (re_match_placement_group v)); [done|]. by simplify_eq.
    - by simplify_eq. }
  assert (placement_group_setter value' n1 = Ok n1) as ->; [|done].
  unfold placement_group_setter. rewrite Hpg.
  unfold placement_group in *. rewrite bool_decide_eq_true_2 by done.
  rewrite andb_false_r. simpl.
  unfold placement_group_valid, placement_group in Hvalid.
  destruct (__placement_group n1) as [v|] eqn:Hv.
  - rewrite Hvalid. simpl. by rewrite <- Hv, with_placement_group_id.
  - by rewrite <- Hv, with_placement_group_id.
Qed.

Lemma set_placement_group_escaped_repeat_witness :
  set_placement_group_escaped (Some "my group!")
    (with_placement_group (Some "my_group_") (exists_setter true node_a))
  = (Ok (Some "my_group_"),
     with_placement_group (Some "my_group_") (exists_setter true node_a)).
Proof.
  apply (set_placement_group_escaped_repeat (Some "my group!") (exists_setter true node_a)).
  reflexivity.
Defined.
